(** * go-small-jsonpath: the path compiler and the query evaluator

    A shallow embedding of [src/jsonpath/jsonpath.go].  Go values are
    modelled as follows.

    - [rune] (Go [int32]) is [Z]; a [[]rune] is a [list Z].
    - positions inside a slice (Go [int], always between 0 and the length
      of a slice that exists in memory) are [nat].
    - the [index] field of a step (Go [int], 64 bits) is a [Z] and the one
      subtraction the evaluator performs on it wraps around, see [wrap_int].
    - a Go [string] is a sequence of bytes, [String.string].
    - [interface{}] holding a decoded JSON value is the inductive [any].
    - a function returning [(T, error)] returns [result T]; a run-time
      panic (an index out of the bounds of a slice) is the outcome [Panic]. *)

From Stdlib Require Import ZArith List String Ascii Bool Lia ZifyBool Floats.
From stdpp Require Import base option list strings gmap.

Local Open Scope Z_scope.

(** ** Outcomes *)

(** One constructor per error site of the source; the payload is the
    position or level the source formats into its message. *)
Inductive errkind : Set :=
  (* strconv *)
  | strconv_syntax | strconv_range
  (* scanners *)
  | parseQuotedName_unexpected_termination
  | parseQuotedName_bad_hex_escape_length
  | parseQuotedName_cannot_parse_hex_escape
  | parseQuotedName_bad_unicode_escape_length_a
  | parseQuotedName_cannot_parse_unicode_escape
  | parseQuotedName_bad_unicode_escape_length_b
  | parseQuotedName_unexpected_termination_on_unicode_escape_a
  | parseQuotedName_unexpected_termination_on_unicode_escape_b
  | parseQuotedName_bad_4_digit_length_a
  | parseQuotedName_cannot_parse_4_digit
  | parseQuotedName_bad_4_digit_length_b
  | parseBareName_empty_expression
  | parseNumber_empty_expression
  | parseHex_empty_expression
  (* compileCore *)
  | compile_path_should_start_with_root
  | compile_unexpected_termination
  | compile_unexpected_termination_in_bracket
  | compile_bad_number_expression
  | compile_integer_cannot_be_parsed
  | compile_bad_quoted_name_expression
  | compile_bracket_is_not_closed
  | compile_unexpected_termination_after_dot
  | compile_unexpected_termination_in_parenthesis
  | compile_bad_function_name_expression
  | compile_parenthesis_is_not_closed
  | compile_bad_name_expression
  | compile_unexpected_character
  (* Query *)
  | query_json_is_not_read
  | query_nil_referenced
  | query_property_does_not_exist
  | query_object_cannot_be_accessed_by_number
  | query_object_cannot_be_accessed_by_function
  | query_array_cannot_be_accessed_by_name
  | query_index_out_of_range
  | query_undefined_function_name
  | query_unexpected_data_type
  (* ReadString *)
  | read_source_is_empty
  | read_unrecognised_tokens
  | read_unmarshal.

Record error : Set := E { kind : errkind; at_pos : nat }.

Inductive result (A : Type) : Type :=
  | Ok (a : A)
  | Err (e : error)
  | Panic.
Arguments Ok {A} a.
Arguments Err {A} e.
Arguments Panic {A}.

Definition bind {A B : Type} (m : result A) (k : A -> result B) : result B :=
  match m with
  | Ok a => k a
  | Err e => Err e
  | Panic => Panic
  end.

Notation "'let*' x ':=' m 'in' k" := (bind m (fun x => k))
  (at level 10, x name, m at level 100, k at level 200, only parsing).

Definition is_ok {A : Type} (m : result A) : bool :=
  match m with Ok _ => true | _ => false end.

Definition is_err {A : Type} (m : result A) : bool :=
  match m with Err _ => true | _ => false end.

(** ** Runes and slices of runes *)

Abbreviation rune := Z (only parsing).

(** [src[i]]: panics outside [0, len(src)). *)
Definition get (src : list rune) (i : nat) : result rune :=
  match src !! i with
  | Some c => Ok c
  | None => Panic
  end.

(** [src[lo:hi]] for [lo <= hi <= len(src)], the only way the source uses
    it (every slice expression there is guarded by a length test). *)
Definition slice (src : list rune) (lo hi : nat) : list rune :=
  take (hi - lo) (drop lo src).

(** Character constants of the source. *)
Abbreviation TAB := 9 (only parsing).
Abbreviation LF := 10 (only parsing).
Abbreviation VT := 11 (only parsing).
Abbreviation FF := 12 (only parsing).
Abbreviation CR := 13 (only parsing).
Abbreviation BS := 8 (only parsing).
Abbreviation SPACE := 32 (only parsing).
Abbreviation BANG := 33 (only parsing).        (* '!' *)
Abbreviation DQUOTE := 34 (only parsing).      (* double quote *)
Abbreviation DOLLAR := 36 (only parsing).      (* '$' *)
Abbreviation SQUOTE := 39 (only parsing).      (* single quote *)
Abbreviation LPAREN := 40 (only parsing).      (* '(' *)
Abbreviation RPAREN := 41 (only parsing).      (* ')' *)
Abbreviation MINUS := 45 (only parsing).       (* '-' *)
Abbreviation DOT := 46 (only parsing).         (* '.' *)
Abbreviation SLASH := 47 (only parsing).       (* '/' *)
Abbreviation DIGIT0 := 48 (only parsing).      (* '0' *)
Abbreviation DIGIT9 := 57 (only parsing).      (* '9' *)
Abbreviation COLON := 58 (only parsing).       (* ':' *)
Abbreviation ATSIGN := 64 (only parsing).      (* '@' *)
Abbreviation UPPER_A := 65 (only parsing).
Abbreviation UPPER_F := 70 (only parsing).
Abbreviation LBRACKET := 91 (only parsing).    (* '[' *)
Abbreviation BACKSLASH := 92 (only parsing).   (* backslash *)
Abbreviation RBRACKET := 93 (only parsing).    (* ']' *)
Abbreviation BACKTICK := 96 (only parsing).    (* '`' *)
Abbreviation LOWER_A := 97 (only parsing).
Abbreviation LOWER_F := 102 (only parsing).
Abbreviation LBRACE := 123 (only parsing).     (* '{' *)
Abbreviation RBRACE := 125 (only parsing).     (* '}' *)
Abbreviation TILDE := 126 (only parsing).      (* '~' *)

(** ** The Go library functions the source calls *)

Module unicode.

(** [unicode.IsSpace]: in Latin-1 the characters
    '\t' '\n' '\v' '\f' '\r' ' ' U+0085 U+00A0; above it the code points
    of the White_Space property. *)
Definition IsSpace (r : rune) : bool :=
  if (0 <=? r) && (r <=? 255) then
    ((TAB <=? r) && (r <=? CR)) || (r =? SPACE) || (r =? 133) || (r =? 160)
  else
    (r =? 5760) || ((8192 <=? r) && (r <=? 8202)) || (r =? 8232)
    || (r =? 8233) || (r =? 8239) || (r =? 8287) || (r =? 12288).

(** [unicode.IsControl]: category Cc, U+0000..U+001F and U+007F..U+009F. *)
Definition IsControl (r : rune) : bool :=
  ((0 <=? r) && (r <=? 31)) || ((127 <=? r) && (r <=? 159)).

End unicode.

(** The test [unicode.IsSpace(ch) || unicode.IsControl(ch)] that the
    scanners repeat. *)
Definition is_blank (ch : rune) : bool :=
  unicode.IsSpace ch || unicode.IsControl ch.

Module utf8.

Definition RuneError : rune := 65533.    (* U+FFFD *)
Definition MaxRune : rune := 1114111.    (* U+10FFFF *)

Definition byte_of (z : Z) : ascii := ascii_of_N (Z.to_N (z mod 256)).
Definition of_byte (b : ascii) : Z := Z.of_N (N_of_ascii b).

(** [utf8.AppendRune]/[EncodeRune]: negative values, surrogates and values
    above [MaxRune] are written as U+FFFD. *)
Definition EncodeRune (r : rune) : list ascii :=
  if (0 <=? r) && (r <=? 127) then [byte_of r]
  else if (0 <=? r) && (r <=? 2047) then
    [byte_of (Z.lor 192 (Z.shiftr r 6));
     byte_of (Z.lor 128 (Z.land r 63))]
  else if (r <? 0) || (MaxRune <? r) || ((55296 <=? r) && (r <=? 57343)) then
    [byte_of 239; byte_of 191; byte_of 189]
  else if r <=? 65535 then
    [byte_of (Z.lor 224 (Z.shiftr r 12));
     byte_of (Z.lor 128 (Z.land (Z.shiftr r 6) 63));
     byte_of (Z.lor 128 (Z.land r 63))]
  else
    [byte_of (Z.lor 240 (Z.shiftr r 18));
     byte_of (Z.lor 128 (Z.land (Z.shiftr r 12) 63));
     byte_of (Z.lor 128 (Z.land (Z.shiftr r 6) 63));
     byte_of (Z.lor 128 (Z.land r 63))].

Definition is_cont (b : Z) : bool := (128 <=? b) && (b <=? 191).

(** [utf8.DecodeRune] on a non-empty input [p0 :: rest]: the rune and its
    width.  Malformed input gives [(RuneError, 1)]. *)
Definition DecodeRune (p0 : Z) (rest : list Z) : rune * nat :=
  if p0 <? 128 then (p0, 1%nat)
  else if (p0 <? 194) || (244 <? p0) then (RuneError, 1%nat)
  else
    let sz : nat :=
      if p0 <? 224 then 2%nat else if p0 <? 240 then 3%nat else 4%nat in
    let lo := if p0 =? 224 then 160 else if p0 =? 240 then 144 else 128 in
    let hi := if p0 =? 237 then 159 else if p0 =? 244 then 143 else 191 in
    match rest with
    | [] => (RuneError, 1%nat)
    | b1 :: rest1 =>
      if (b1 <? lo) || (hi <? b1) then (RuneError, 1%nat)
      else if (sz <=? 2)%nat then
        (Z.lor (Z.shiftl (Z.land p0 31) 6) (Z.land b1 63), 2%nat)
      else
        match rest1 with
        | [] => (RuneError, 1%nat)
        | b2 :: rest2 =>
          if negb (is_cont b2) then (RuneError, 1%nat)
          else if (sz <=? 3)%nat then
            (Z.lor (Z.lor (Z.shiftl (Z.land p0 15) 12)
                          (Z.shiftl (Z.land b1 63) 6))
                   (Z.land b2 63), 3%nat)
          else
            match rest2 with
            | [] => (RuneError, 1%nat)
            | b3 :: _ =>
              if negb (is_cont b3) then (RuneError, 1%nat)
              else
                (Z.lor (Z.lor (Z.lor (Z.shiftl (Z.land p0 7) 18)
                                     (Z.shiftl (Z.land b1 63) 12))
                              (Z.shiftl (Z.land b2 63) 6))
                       (Z.land b3 63), 4%nat)
            end
        end
    end.

End utf8.

(** [string(buf)] for [buf []rune]. *)
Definition string_of_runes (buf : list rune) : string :=
  string_of_list_ascii (flat_map utf8.EncodeRune buf).

(** [[]rune(s)]: the runes of [s], one U+FFFD per byte that starts no
    well-formed encoding.  [skip] counts the bytes of the current rune that
    are still to be passed over. *)
Fixpoint decode_runes (skip : nat) (bs : list Z) : list rune :=
  match bs with
  | [] => []
  | b :: rest =>
    match skip with
    | S k => decode_runes k rest
    | O =>
      let '(r, size) := utf8.DecodeRune b rest in
      r :: decode_runes (size - 1) rest
    end
  end.

Definition runes_of_string (s : string) : list rune :=
  decode_runes 0 (map utf8.of_byte (list_ascii_of_string s)).

Module strconv.

Definition maxUint64 : Z := 2 ^ 64 - 1.

(** The digit value [ParseUint] gives a byte: '0'..'9', then letters of
    either case from 10 on; nothing else is a digit. *)
Definition digit_of (c : Z) : option Z :=
  if (DIGIT0 <=? c) && (c <=? DIGIT9) then Some (c - DIGIT0)
  else
    let l := Z.lor c 32 in
    if (LOWER_A <=? l) && (l <=? 122) then Some (l - LOWER_A + 10)
    else None.

(** The loop of [strconv.ParseUint(s, base, 64)] for an explicit base:
    no prefix and no underscore is accepted. *)
Fixpoint ParseUint_loop (base : Z) (n : Z) (s : list Z) : result Z :=
  match s with
  | [] => Ok n
  | c :: s' =>
    match digit_of c with
    | None => Err (E strconv_syntax 0)
    | Some d =>
      if base <=? d then Err (E strconv_syntax 0)
      else if maxUint64 / base + 1 <=? n then Err (E strconv_range 0)
      else
        let n1 := n * base + d in
        if maxUint64 <? n1 then Err (E strconv_range 0)
        else ParseUint_loop base n1 s'
    end
  end.

Definition ParseUint (s : list Z) (base : Z) : result Z :=
  match s with
  | [] => Err (E strconv_syntax 0)
  | _ => ParseUint_loop base 0 s
  end.

(** [strconv.ParseInt(s, base, 64)] for [base] 10 or 16. *)
Definition ParseInt (s : string) (base : Z) : result Z :=
  let bs := map utf8.of_byte (list_ascii_of_string s) in
  match bs with
  | [] => Err (E strconv_syntax 0)
  | c :: bs' =>
    let neg := c =? MINUS in
    let body := if (c =? 43) || (c =? MINUS) then bs' else bs in
    let* un := ParseUint body base in
    let cutoff := 2 ^ 63 in
    if negb neg && (cutoff <=? un) then Err (E strconv_range 0)
    else if neg && (cutoff <? un) then Err (E strconv_range 0)
    else Ok (if neg then - un else un)
  end.

End strconv.

(** [rune(v)] for [v int64] and [int(v)] for [v int64]: conversions between
    integer types keep the low bits. *)
Definition wrap_bits (w : Z) (z : Z) : Z :=
  (z + 2 ^ (w - 1)) mod 2 ^ w - 2 ^ (w - 1).

Definition rune_of_int64 (v : Z) : rune := wrap_bits 32 v.
Definition int_of_int64 (v : Z) : Z := wrap_bits 64 v.

(** Arithmetic on Go [int] (64 bits) wraps around. *)
Definition wrap_int (z : Z) : Z := wrap_bits 64 z.

(** ** The compiled path *)

Inductive astType : Set :=
  | astType_NameIndexer
  | astType_NumberIndexer
  | astType_Function.

Record ast : Set := mk_ast {
  ast_typ : astType;
  ast_name : string;
  ast_index : Z
}.

Record CompiledJSONPath : Set := mk_path { asts : list ast }.

(** The three composite literals [ast{typ: ..., ...}] of [compileCore];
    a field the literal leaves out has its zero value. *)
Definition ast_NumberIndexer (index : Z) : ast :=
  {| ast_typ := astType_NumberIndexer; ast_name := EmptyString; ast_index := index |}.
Definition ast_NameIndexer (name : string) : ast :=
  {| ast_typ := astType_NameIndexer; ast_name := name; ast_index := 0 |}.
Definition ast_Function (name : string) : ast :=
  {| ast_typ := astType_Function; ast_name := name; ast_index := 0 |}.

(** ** Scanner primitives *)

(** [if err != nil { return nil, fmt.Errorf(...) }]: the caller replaces
    the callee's error by its own. *)
Definition wrap_err {A : Type} (m : result A) (e : error) : result A :=
  match m with
  | Ok a => Ok a
  | Err _ => Err e
  | Panic => Panic
  end.

(** The loop of [skipSpaces] over [src[i:]]. *)
Fixpoint skipSpaces_loop (len : nat) (rest : list rune) (i : nat) : nat :=
  match rest with
  | [] => len
  | ch :: rest' =>
    if negb (unicode.IsSpace ch) && negb (unicode.IsControl ch) then i
    else skipSpaces_loop len rest' (S i)
  end.

Definition skipSpaces (src : list rune) (start : nat) : result nat :=
  Ok (skipSpaces_loop (length src) (drop start src) start).

Definition bare_punct (ch : rune) : bool :=
  ((BANG <=? ch) && (ch <=? SLASH)) || ((COLON <=? ch) && (ch <=? ATSIGN))
  || ((LBRACKET <=? ch) && (ch <=? BACKTICK))
  || ((LBRACE <=? ch) && (ch <=? TILDE)).

Fixpoint parseBareName_loop (rest : list rune) (i : nat) (buf : list rune)
  : list rune * nat :=
  match rest with
  | [] => (buf, i)
  | ch :: rest' =>
    if unicode.IsSpace ch || unicode.IsControl ch then (buf, i)
    else if bare_punct ch then (buf, i)
    else parseBareName_loop rest' (S i) (buf ++ [ch])
  end.

Definition parseBareName (src : list rune) (start : nat)
  : result (string * nat) :=
  let '(buf, i) := parseBareName_loop (drop start src) start [] in
  if (length buf =? 0)%nat then Err (E parseBareName_empty_expression start)
  else Ok (string_of_runes buf, i).

Definition is_digit (ch : rune) : bool := (DIGIT0 <=? ch) && (ch <=? DIGIT9).

Fixpoint parseNumber_loop (rest : list rune) (i : nat) : nat :=
  match rest with
  | [] => i
  | ch :: rest' =>
    if (i =? 0)%nat && (ch =? MINUS) then parseNumber_loop rest' (S i)
    else if is_digit ch then parseNumber_loop rest' (S i)
    else i
  end.

Definition parseNumber (src : list rune) (start : nat) : result nat :=
  let i := parseNumber_loop (drop start src) start in
  if (i =? start)%nat then Err (E parseNumber_empty_expression start)
  else Ok i.

Definition is_hex (ch : rune) : bool :=
  ((DIGIT0 <=? ch) && (ch <=? DIGIT9)) || ((UPPER_A <=? ch) && (ch <=? UPPER_F))
  || ((LOWER_A <=? ch) && (ch <=? LOWER_F)).

Fixpoint parseHex_loop (rest : list rune) (i : nat) : nat :=
  match rest with
  | [] => i
  | ch :: rest' => if is_hex ch then parseHex_loop rest' (S i) else i
  end.

Definition parseHex (src : list rune) (start : nat) : result nat :=
  let i := parseHex_loop (drop start src) start in
  if (i =? start)%nat then Err (E parseHex_empty_expression start)
  else Ok i.

(** How an iteration of a loop ends: with a [return] or at the next
    iteration with a new state. *)
Inductive loop_ctl (R S : Type) : Type :=
  | Return (r : R)
  | Continue (s : S).
Arguments Return {R S} r.
Arguments Continue {R S} s.

(** One iteration of the loop of [parseQuotedName] at position [i < len(src)]
    with buffer [buf]: it returns, or goes on at a later position (the
    value of [i] after the [i++] of the loop) with a longer buffer.  The inner
    [switch src[i+1]] has no [default]: after any other character the
    iteration ends with [i] and [buf] unchanged. *)
Definition parseQuotedName_body (src : list rune) (cc : rune) (i : nat)
    (buf : list rune)
  : result (loop_ctl (string * nat) (nat * list rune)) :=
  let len := length src in
  let* ch := get src i in
  if ch =? cc then Ok (Return (string_of_runes buf, (i + 1)%nat))
  else if ch =? BACKSLASH then
    if (i + 1 =? len)%nat then
      Err (E parseQuotedName_unexpected_termination i)
    else
      let* c1 := get src (i + 1) in
      if (c1 =? BACKSLASH) || (c1 =? DQUOTE) || (c1 =? SQUOTE)
         || (c1 =? BACKTICK) then
        Ok (Continue ((i + 2)%nat, buf ++ [c1]))
      else if (c1 =? 110) || (c1 =? 78) then       (* n N *)
        Ok (Continue ((i + 2)%nat, buf ++ [LF]))
      else if (c1 =? 114) || (c1 =? 82) then       (* r R *)
        Ok (Continue ((i + 2)%nat, buf ++ [CR]))
      else if (c1 =? 118) || (c1 =? 86) then       (* v V *)
        Ok (Continue ((i + 2)%nat, buf ++ [VT]))
      else if (c1 =? 116) || (c1 =? 84) then       (* t T *)
        Ok (Continue ((i + 2)%nat, buf ++ [TAB]))
      else if (c1 =? 98) || (c1 =? 66) then        (* b B *)
        Ok (Continue ((i + 2)%nat, buf ++ [BS]))
      else if (c1 =? 102) || (c1 =? 70) then       (* f F *)
        Ok (Continue ((i + 2)%nat, buf ++ [FF]))
      else if (c1 =? 120) || (c1 =? 88) then       (* x X *)
        if (len <=? i + 3)%nat then
          Err (E parseQuotedName_bad_hex_escape_length i)
        else
          let* v :=
            wrap_err
              (strconv.ParseInt
                 (string_of_runes (slice src (i + 2) (i + 4))) 16)
              (E parseQuotedName_cannot_parse_hex_escape i) in
          Ok (Continue ((i + 4)%nat, buf ++ [rune_of_int64 v]))
      else if (c1 =? 117) || (c1 =? 85) then       (* u U *)
        if (len <=? i + 2)%nat then
          Err (E parseQuotedName_bad_unicode_escape_length_a i)
        else
          let* c2 := get src (i + 2) in
          if c2 =? LBRACE then
            let* end_ :=
              wrap_err (parseHex src (i + 3))
                (E parseQuotedName_cannot_parse_unicode_escape i) in
            if (i + 9 <? end_)%nat then
              Err (E parseQuotedName_bad_unicode_escape_length_b i)
            else
              let* v :=
                strconv.ParseInt
                  (string_of_runes (slice src (i + 3) end_)) 16 in
              if (len <=? end_)%nat then
                Err (E parseQuotedName_unexpected_termination_on_unicode_escape_a i)
              else
                let* ce := get src end_ in
                if negb (ce =? RBRACE) then
                  Err (E parseQuotedName_unexpected_termination_on_unicode_escape_b i)
                else
                  Ok (Continue ((end_ + 1)%nat, buf ++ [rune_of_int64 v]))
          else
            if (len <=? i + 5)%nat then
              Err (E parseQuotedName_bad_4_digit_length_a i)
            else
              let* end_ :=
                wrap_err (parseHex src (i + 2))
                  (E parseQuotedName_cannot_parse_4_digit i) in
              if negb (end_ =? i + 6)%nat then
                Err (E parseQuotedName_bad_4_digit_length_b i)
              else
                let* v :=
                  strconv.ParseInt
                    (string_of_runes (slice src (i + 2) end_)) 16 in
                Ok (Continue (end_, buf ++ [rune_of_int64 v]))
      else
        Ok (Continue ((i + 1)%nat, buf))
  else
    Ok (Continue ((i + 1)%nat, buf ++ [ch])).

(** The loop of [parseQuotedName], one iteration per unit of [fuel]; [i]
    grows at every iteration, so [length src] units are enough
    (see [parseQuotedName_loop_fuel]). *)
Fixpoint parseQuotedName_loop (fuel : nat) (src : list rune) (cc : rune)
    (start i : nat) (buf : list rune) : result (string * nat) :=
  match fuel with
  | O => Err (E parseQuotedName_unexpected_termination start)
  | S fuel' =>
    if (length src <=? i)%nat then
      Err (E parseQuotedName_unexpected_termination start)
    else
      let* c := parseQuotedName_body src cc i buf in
      match c with
      | Return r => Ok r
      | Continue (i', buf') => parseQuotedName_loop fuel' src cc start i' buf'
      end
  end.

Definition parseQuotedName (src : list rune) (cc : rune) (start : nat)
  : result (string * nat) :=
  parseQuotedName_loop (length src) src cc start start [].

(** ** The path compiler *)

(** One iteration of the loop of [compileCore] at position [i < len(src)]
    with the steps [acc] compiled so far: the position of the next
    iteration (the value of [i] after the [i++] of the loop) and the steps.
    Where the source ends an iteration with [i = end - 1] the next one starts
    at [end]; where it ends with [i = end], at [end + 1]. *)
Definition compileCore_body (src : list rune) (i : nat) (acc : list ast)
  : result (nat * list ast) :=
  let len := length src in
  let* ch := get src i in
  if unicode.IsSpace ch || unicode.IsControl ch then
    let* end_ :=
      wrap_err (skipSpaces src (i + 1))
        (E compile_unexpected_termination i) in
    Ok (end_, acc)
  else if ch =? LBRACKET then
    (* number indexer / name indexer *)
    let* end_ :=
      wrap_err (skipSpaces src (i + 1))
        (E compile_unexpected_termination_in_bracket i) in
    if (end_ =? len)%nat then
      Err (E compile_unexpected_termination_in_bracket i)
    else
      let start := end_ in
      let* c := get src start in
      let* operand :=
        if is_digit c || (c =? MINUS) then
          let* end_ :=
            wrap_err (parseNumber src start)
              (E compile_bad_number_expression start) in
          let* num :=
            wrap_err
              (strconv.ParseInt
                 (string_of_runes (slice src start end_)) 10)
              (E compile_integer_cannot_be_parsed start) in
          Ok (end_, acc ++ [ast_NumberIndexer (int_of_int64 num)])
        else if (c =? SQUOTE) || (c =? DQUOTE) then
          (* quoted name *)
          let* r :=
            wrap_err (parseQuotedName src c (start + 1))
              (E compile_bad_quoted_name_expression start) in
          Ok (snd r, acc ++ [ast_NameIndexer (fst r)])
        else
          Err (E compile_bad_quoted_name_expression start) in
      let acc' := snd operand in
      let* end_ :=
        wrap_err (skipSpaces src (fst operand))
          (E compile_unexpected_termination_in_bracket start) in
      if (end_ =? len)%nat then
        Err (E compile_unexpected_termination_in_bracket start)
      else
        let* ce := get src end_ in
        if negb (ce =? RBRACKET) then
          Err (E compile_bracket_is_not_closed end_)
        else
          Ok ((end_ + 1)%nat, acc')
  else if ch =? DOT then
    let* end_ :=
      wrap_err (skipSpaces src (i + 1))
        (E compile_unexpected_termination_after_dot i) in
    if (end_ =? len)%nat then
      Err (E compile_unexpected_termination_after_dot i)
    else
      let start := end_ in
      let* ch2 := get src start in
      if ch2 =? LPAREN then
        (* function *)
        let* end_ :=
          wrap_err (skipSpaces src (start + 1))
            (E compile_unexpected_termination_in_parenthesis i) in
        let start := end_ in
        let* r :=
          wrap_err (parseBareName src start)
            (E compile_bad_function_name_expression start) in
        let acc' := acc ++ [ast_Function (fst r)] in
        let* end_ :=
          wrap_err (skipSpaces src (snd r))
            (E compile_unexpected_termination_in_parenthesis start) in
        if (end_ =? len)%nat then
          Err (E compile_unexpected_termination_in_parenthesis start)
        else
          let* ce := get src end_ in
          if negb (ce =? RPAREN) then
            Err (E compile_parenthesis_is_not_closed end_)
          else
            Ok ((end_ + 1)%nat, acc')
      else
        (* bare name *)
        let* r :=
          wrap_err (parseBareName src start)
            (E compile_bad_name_expression start) in
        let acc' := acc ++ [ast_NameIndexer (fst r)] in
        let* end_ :=
          wrap_err (skipSpaces src (snd r))
            (E compile_bad_name_expression start) in
        Ok (end_, acc')
  else
    Err (E compile_unexpected_character i).

(** The loop of [compileCore], one iteration per unit of [fuel]
    (see [compileCore_loop_fuel]). *)
Fixpoint compileCore_loop (fuel : nat) (src : list rune) (i : nat)
    (acc : list ast) : result CompiledJSONPath :=
  match fuel with
  | O => Ok {| asts := acc |}
  | S fuel' =>
    if (length src <=? i)%nat then Ok {| asts := acc |}
    else
      let* r := compileCore_body src i acc in
      compileCore_loop fuel' src (fst r) (snd r)
  end.

Definition compileCore (src : list rune) (root : rune)
  : result CompiledJSONPath :=
  let* c0 := get src 0 in
  if negb (c0 =? root) then Err (E compile_path_should_start_with_root 0)
  else compileCore_loop (length src) src 1 [].

Definition Compile (path : string) : result CompiledJSONPath :=
  compileCore (runes_of_string path) DOLLAR.

(** ** Values *)

Inductive JSONValueType : Set :=
  | Type_Invalid
  | Type_Null
  | Type_Number
  | Type_String
  | Type_Object
  | Type_Array.

(** What an [interface{}] holds here: the values [encoding/json] decodes
    into ([nil], [bool], [float64], [string], [map[string]interface{}],
    [[]interface{}]) and the [int] that the [length] operand produces. *)
#[local] Unset Elimination Schemes.
Inductive any : Type :=
  | Nil
  | Bool (b : bool)
  | Float64 (f : float)
  | Str (s : string)
  | Map (m : gmap string any)
  | Slice (l : list any)
  | Int (n : Z).
#[local] Set Elimination Schemes.

Record parsedJSON : Type := mk_json { typ : JSONValueType; value : any }.

(** ** The query evaluator *)

(** [z[idx]] for an [int] index: panics outside [0, len(z)). *)
Definition index_slice (z : list any) (idx : Z) : result any :=
  if idx <? 0 then Panic
  else
    match z !! Z.to_nat idx with
    | Some v => Ok v
    | None => Panic
    end.

(** The body of the loop of [Query]: the step [a] at level [i] applied to
    the current value [v]. *)
Definition Query_step (i : nat) (a : ast) (v : any) : result any :=
  match v with
  | Nil => Err (E query_nil_referenced i)
  | Map z =>
    match ast_typ a with
    | astType_NameIndexer =>
      match z !! ast_name a with
      | Some v' => Ok v'
      | None => Err (E query_property_does_not_exist i)
      end
    | astType_NumberIndexer =>
      Err (E query_object_cannot_be_accessed_by_number i)
    | astType_Function =>
      Err (E query_object_cannot_be_accessed_by_function i)
    end
  | Slice z =>
    let len := Z.of_nat (length z) in
    match ast_typ a with
    | astType_NameIndexer =>
      Err (E query_array_cannot_be_accessed_by_name i)
    | astType_NumberIndexer =>
      let idx := ast_index a in
      let idx := if idx <? 0 then wrap_int (len - idx) else idx in
      if len <=? idx then Err (E query_index_out_of_range i)
      else index_slice z idx
    | astType_Function =>
      if String.eqb (ast_name a) "length" then Ok (Int len)
      else if String.eqb (ast_name a) "first" then
        if len =? 0 then Err (E query_index_out_of_range i)
        else index_slice z 0
      else if String.eqb (ast_name a) "last" then
        if len =? 0 then Err (E query_index_out_of_range i)
        else index_slice z (len - 1)
      else Err (E query_undefined_function_name i)
    end
  | _ => Err (E query_unexpected_data_type i)
  end.

(** [for i, a := range p.asts]. *)
Fixpoint Query_loop (i : nat) (steps : list ast) (v : any) : result any :=
  match steps with
  | [] => Ok v
  | a :: steps' =>
    let* v' := Query_step i a v in
    Query_loop (S i) steps' v'
  end.

Definition Query (p : CompiledJSONPath) (pjson : parsedJSON) : result any :=
  match typ pjson with
  | Type_Invalid => Err (E query_json_is_not_read 0)
  | _ => Query_loop 0 (asts p) (value pjson)
  end.


Definition QueryAsNumberOrZero (p : CompiledJSONPath) (pjson : parsedJSON)
  : result float :=
  match Query p pjson with
  | Ok (Float64 ret) => Ok ret
  | Ok _ => Ok 0%float
  | Err _ => Ok 0%float
  | Panic => Panic
  end.

(** ** Test data *)

(** Path texts holding a double quote or a backslash are built from these. *)
Definition dq : string := String (ascii_of_nat 34) EmptyString.
Definition bsl : string := String (ascii_of_nat 92) EmptyString.

(** The document [{"a":{"b":1}}] of the tests, as [ReadString] builds it. *)
Definition doc_a_b_1 : parsedJSON :=
  {| typ := Type_Object;
     value := Map {[ "a"%string := Map {[ "b"%string := Float64 1%float ]} ]} |}.

(** The document [{"test":[{"abc":1},{"abc":10}]}] of the tests. *)
Definition doc_test : parsedJSON :=
  {| typ := Type_Object;
     value :=
       Map {[ "test"%string :=
                Slice [ Map {[ "abc"%string := Float64 1%float ]};
                        Map {[ "abc"%string := Float64 10%float ]} ] ]} |}.

(** ** Vocabulary of the properties *)

(** A run of characters of one class stops at the end of the text or at a
    character outside the class. *)
Definition stops_at (class : rune -> bool) (post : list rune) : Prop :=
  match post with
  | [] => True
  | c :: _ => class c = false
  end.

Definition stops_blanks (post : list rune) : Prop := stops_at is_blank post.

(** The characters a bare name is made of. *)
Definition bare_char (ch : rune) : bool :=
  negb (is_blank ch) && negb (bare_punct ch).

(** The loop of [compileCore] from position [i] on, with the fuel that is
    enough there. *)
Definition compile_from (src : list rune) (i : nat) (acc : list ast)
  : result CompiledJSONPath :=
  compileCore_loop (length src - i) src i acc.

(** The indices the compiler produces, see [compile_indices_nonneg]. *)
Definition nonneg_index (a : ast) : Prop := 0 <= ast_index a.

(** Moving a result of [parseQuotedName] (or of one iteration of it) with
    the text it was computed on: positions grow by [p]. *)
Definition shift_ctl (p : nat)
    (c : loop_ctl (string * nat) (nat * list rune))
  : loop_ctl (string * nat) (nat * list rune) :=
  match c with
  | Return (name, e) => Return (name, (p + e)%nat)
  | Continue (i, buf) => Continue ((p + i)%nat, buf)
  end.

(** An iteration that goes on inside the text. *)
Definition goes_on_inside (l : list rune)
    (c : loop_ctl (string * nat) (nat * list rune)) : Prop :=
  match c with
  | Return _ => True
  | Continue (i, _) => (i < length l)%nat
  end.

(** *** Path texts, selector by selector *)

(** The text of one selector without the blanks around its tokens: the
    digits of [[N]], the quote character and the raw text between the quotes
    of [['name']], the characters of [.name] and of [.(name)]. *)
Inductive selector : Type :=
  | SelNumber (digits : list rune)
  | SelQuoted (cc : rune) (text : list rune)
  | SelName (name : list rune)
  | SelFunction (name : list rune).

(** The runs of blanks written around the tokens of one selector. *)
Record blanks : Type := mk_blanks {
  bl1 : list rune;
  bl2 : list rune;
  bl3 : list rune;
  bl4 : list rune
}.

Definition all_blank (ws : list rune) : bool := forallb is_blank ws.

Definition blanks_ok (b : blanks) : bool :=
  all_blank (bl1 b) && all_blank (bl2 b) && all_blank (bl3 b)
  && all_blank (bl4 b).

Definition no_blanks : blanks := mk_blanks [] [] [] [].

(** A selector written with blanks: after the opening bracket, before the
    closing bracket and after it; after the dot and after the name; after
    the dot, inside the parentheses on both sides of the name, and after the
    closing parenthesis. *)
Definition render_selector (s : selector) (b : blanks) : list rune :=
  match s with
  | SelNumber ds =>
    LBRACKET :: bl1 b ++ ds ++ bl2 b ++ RBRACKET :: bl3 b
  | SelQuoted cc text =>
    LBRACKET :: bl1 b ++ cc :: text ++ cc :: bl2 b ++ RBRACKET :: bl3 b
  | SelName n =>
    DOT :: bl1 b ++ n ++ bl2 b
  | SelFunction n =>
    DOT :: bl1 b ++ LPAREN :: bl2 b ++ n ++ bl3 b ++ RPAREN :: bl4 b
  end.

Fixpoint render (sels : list selector) (bs : list blanks) : list rune :=
  match sels, bs with
  | s :: sels', b :: bs' => render_selector s b ++ render sels' bs'
  | _, _ => []
  end.

(** The root marker, blanks, and the selectors. *)
Definition render_path (b0 : list rune) (sels : list selector)
    (bs : list blanks) : list rune :=
  DOLLAR :: b0 ++ render sels bs.

Definition nonempty {A : Type} (l : list A) : bool :=
  match l with [] => false | _ => true end.

(** The step a selector stands for, when it is well formed: digits that
    [ParseInt] accepts; a text between quotes that [parseQuotedName] reads up
    to the closing quote; a name made of name characters. *)
Definition step_of (s : selector) : option ast :=
  match s with
  | SelNumber ds =>
    if nonempty ds && forallb is_digit ds then
      match strconv.ParseInt (string_of_runes ds) 10 with
      | Ok num => Some (ast_NumberIndexer (int_of_int64 num))
      | _ => None
      end
    else None
  | SelQuoted cc text =>
    if (cc =? SQUOTE) || (cc =? DQUOTE) then
      match parseQuotedName (text ++ [cc]) cc 0 with
      | Ok (name, end_) =>
        if (end_ =? length text + 1)%nat then Some (ast_NameIndexer name)
        else None
      | _ => None
      end
    else None
  | SelName n =>
    if nonempty n && forallb bare_char n then
      Some (ast_NameIndexer (string_of_runes n))
    else None
  | SelFunction n =>
    if nonempty n && forallb bare_char n then
      Some (ast_Function (string_of_runes n))
    else None
  end.

Fixpoint steps_of (sels : list selector) : option (list ast) :=
  match sels with
  | [] => Some []
  | s :: sels' =>
    match step_of s, steps_of sels' with
    | Some a, Some steps => Some (a :: steps)
    | _, _ => None
    end
  end.

(** What may follow a selector: nothing, or the first character of a
    selector. *)
Definition starts_selector (post : list rune) : Prop :=
  match post with
  | [] => True
  | c :: _ => c = DOT \/ c = LBRACKET
  end.

(** The runes of a text of ASCII characters. *)
Definition runes (s : string) : list rune :=
  map utf8.of_byte (list_ascii_of_string s).

(** *** Escapes in quoted names *)

(** The characters the inner [switch] of [parseQuotedName] has a case
    for: backslash, the quotes, the backtick, and [n r v t b f x u] in
    either case. *)
Definition escape_introducer (c : rune) : bool :=
  (c =? BACKSLASH) || (c =? DQUOTE) || (c =? SQUOTE) || (c =? BACKTICK)
  || (c =? 110) || (c =? 78) || (c =? 114) || (c =? 82)
  || (c =? 118) || (c =? 86) || (c =? 116) || (c =? 84)
  || (c =? 98) || (c =? 66) || (c =? 102) || (c =? 70)
  || (c =? 120) || (c =? 88) || (c =? 117) || (c =? 85).

(** The length of the run of hex digits at the head of a text. *)
Fixpoint hex_run (l : list rune) : nat :=
  match l with
  | [] => O
  | c :: l' => if is_hex c then S (hex_run l') else O
  end.

Definition is_sign (c : rune) : bool := (c =? 43) || (c =? MINUS).

(** The character of [src] at [i], or -1 after the end. *)
Definition char_at (src : list rune) (i : nat) : rune :=
  match src !! i with Some c => c | None => -1 end.

(** A hex escape that is not well formed, [k] being the position of its
    backslash.  After [x]: fewer than two characters follow, or the second
    is no hex digit, or the first is neither a hex digit nor a sign.
    After [u] and an opening brace: the run of hex digits has not 1 to 6
    digits, or no closing brace follows it.  After [u] otherwise: the run of
    hex digits has not exactly 4 digits. *)
Definition bad_hex_escape (src : list rune) (k : nat) : bool :=
  let c1 := char_at src (k + 1) in
  if (c1 =? 120) || (c1 =? 88) then
    (length src <=? k + 3)%nat
    || negb (is_hex (char_at src (k + 3)))
    || negb (is_hex (char_at src (k + 2)) || is_sign (char_at src (k + 2)))
  else if (c1 =? 117) || (c1 =? 85) then
    if char_at src (k + 2) =? LBRACE then
      let n := hex_run (drop (k + 3) src) in
      (n =? 0)%nat || (6 <? n)%nat
      || negb (char_at src (k + 3 + n) =? RBRACE)
    else
      negb (hex_run (drop (k + 2) src) =? 4)%nat
  else false.

(** The states [(i, buf)] the loop of [parseQuotedName src cc start] goes
    through. *)
Inductive scan_reaches (src : list rune) (cc : rune) (start : nat)
  : nat -> list rune -> Prop :=
  | scan_start : scan_reaches src cc start start []
  | scan_step (i : nat) (buf : list rune) (i' : nat) (buf' : list rune) :
      scan_reaches src cc start i buf ->
      (i < length src)%nat ->
      parseQuotedName_body src cc i buf = Ok (Continue (i', buf')) ->
      scan_reaches src cc start i' buf'.

(** The states [(i, acc)] the loop of [compileCore src '$'] goes
    through. *)
Inductive compile_reaches (src : list rune) : nat -> list ast -> Prop :=
  | compile_start :
      get src 0 = Ok DOLLAR -> compile_reaches src 1 []
  | compile_step (i : nat) (acc : list ast) (i' : nat) (acc' : list ast) :
      compile_reaches src i acc ->
      (i < length src)%nat ->
      compileCore_body src i acc = Ok (i', acc') ->
      compile_reaches src i' acc'.

(** The loop of [parseQuotedName] from position [i] on, with the fuel that
    is enough there. *)
Definition parse_from (src : list rune) (cc : rune) (start i : nat)
    (buf : list rune) : result (string * nat) :=
  parseQuotedName_loop (length src - i) src cc start i buf.

(** *** Reading a document *)

(** [json.Unmarshal] into a variable of each of the four types that
    [ReadString] uses, and [strings.TrimSpace]: the library functions that
    [ReadString] calls and this development does not model. *)
Record json_library : Type := mk_json_library {
  TrimSpace : string -> string;
  Unmarshal_map : string -> result (gmap string any);
  Unmarshal_slice : string -> result (list any);
  Unmarshal_string : string -> result string;
  Unmarshal_float64 : string -> result float
}.

Definition ReadString (lib : json_library) (src : string)
  : result parsedJSON :=
  let src2 := TrimSpace lib src in
  match src with
  | EmptyString => Err (E read_source_is_empty 0)
  | String c _ =>
    (* NOTE: NaN and Infinity are not valid JSON *)
    if Ascii.eqb c "n" then
      if negb (String.eqb src "null") then Err (E read_unrecognised_tokens 0)
      else Ok {| typ := Type_Null; value := Nil |}
    else if Ascii.eqb c "{" then
      let* dst := Unmarshal_map lib src2 in
      Ok {| typ := Type_Object; value := Map dst |}
    else if Ascii.eqb c "[" then
      let* dst := Unmarshal_slice lib src2 in
      Ok {| typ := Type_Array; value := Slice dst |}
    else if Ascii.eqb c (ascii_of_nat 34) then
      let* dst := Unmarshal_string lib src2 in
      Ok {| typ := Type_String; value := Str dst |}
    else
      let* dst := Unmarshal_float64 lib src2 in
      Ok {| typ := Type_Number; value := Float64 dst |}
  end.

Definition Root (p : parsedJSON) : any := value p.

(** The type tag [ReadString] gives a value. *)
Definition typ_matches (t : JSONValueType) (v : any) : Prop :=
  match t, v with
  | Type_Null, Nil => True
  | Type_Number, Float64 _ => True
  | Type_String, Str _ => True
  | Type_Object, Map _ => True
  | Type_Array, Slice _ => True
  | _, _ => False
  end.

(** Moving the level of an error of [Query]. *)
Definition shift_level (n : nat) (r : result any) : result any :=
  match r with
  | Ok v => Ok v
  | Err e => Err (E (kind e) (n + at_pos e))
  | Panic => Panic
  end.

(** The values that take no step. *)
Definition is_scalar (v : any) : bool :=
  match v with
  | Bool _ | Float64 _ | Str _ | Int _ => true
  | _ => false
  end.

(** A library that decodes nothing, for examples. *)
Definition no_decoder : json_library :=
  {| TrimSpace := fun s => s;
     Unmarshal_map := fun _ => Err (E read_unmarshal 0);
     Unmarshal_slice := fun _ => Err (E read_unmarshal 0);
     Unmarshal_string := fun _ => Err (E read_unmarshal 0);
     Unmarshal_float64 := fun _ => Err (E read_unmarshal 0) |}.

(** *** Values of digits *)

(** The number a run of decimal digits writes. *)
Definition decimal_value (ds : list rune) : Z :=
  fold_left (fun n c => n * 10 + (c - DIGIT0)) ds 0.

(** The value of a hex digit, of either case. *)
Definition hex_digit_value (c : rune) : Z :=
  if (DIGIT0 <=? c) && (c <=? DIGIT9) then c - DIGIT0
  else if (UPPER_A <=? c) && (c <=? UPPER_F) then c - UPPER_A + 10
  else c - LOWER_A + 10.

(** The number a run of hex digits writes. *)
Definition hex_value (hs : list rune) : Z :=
  fold_left (fun n c => n * 16 + hex_digit_value c) hs 0.

(** A text of ASCII characters. *)
Definition ascii_text (s : string) : bool :=
  forallb (fun b => utf8.of_byte b <? 128) (list_ascii_of_string s).

(** A character that is neither the closing quote nor a backslash. *)
Definition plain_char (cc : rune) (c : rune) : bool :=
  negb (c =? cc) && negb (c =? BACKSLASH).

(* ================================================================== *)
(** * Properties *)

(** ** The query evaluator *)

Lemma bind_ok {A B : Type} (m : result A) (k : A -> result B) (b : B) :
  bind m k = Ok b -> exists a, m = Ok a /\ k a = Ok b.
Proof. destruct m; simpl; intros H; try discriminate; eauto. Qed.

Lemma Query_loop_app (p q : list ast) (i : nat) (v : any) :
  Query_loop i (p ++ q) v =
  bind (Query_loop i p v) (Query_loop (i + length p) q).
Proof.
  revert i v. induction p as [|a p IH]; intros i v; simpl.
  - by rewrite Nat.add_0_r.
  - destruct (Query_step i a v) as [v'| |]; simpl; [|done..].
    rewrite IH. by replace (S i + length p)%nat with (i + S (length p))%nat by lia.
Qed.

(** A query that succeeds was run on a document that was read. *)
Lemma Query_ok_loop (p : CompiledJSONPath) (pjson : parsedJSON) (v : any) :
  Query p pjson = Ok v ->
  typ pjson <> Type_Invalid /\ Query_loop 0 (asts p) (value pjson) = Ok v.
Proof. unfold Query. destruct (typ pjson); intros H; by try discriminate. Qed.

(** One more step after a query that succeeds. *)
Lemma Query_snoc (p : CompiledJSONPath) (a : ast) (pjson : parsedJSON) (v : any) :
  Query p pjson = Ok v ->
  Query {| asts := asts p ++ [a] |} pjson = Query_step (length (asts p)) a v.
Proof.
  intros [Ht Hl]%Query_ok_loop. unfold Query. simpl.
  rewrite Query_loop_app, Hl. simpl.
  destruct (Query_step _ a v), (typ pjson); by try done.
Qed.

(** C6. A compiled path with no step, which is what the path text [$]
    compiles to, evaluates on every document that was read (null, a bare
    string and a bare number among them) to the root value itself. *)
Theorem root_only_path_returns_root :
  Compile "$" = Ok {| asts := [] |} /\
  forall pjson : parsedJSON,
    typ pjson <> Type_Invalid ->
    Query {| asts := [] |} pjson = Ok (value pjson).
Proof.
  split; [reflexivity|].
  intros [t v] Ht. unfold Query. simpl in *. by destruct t.
Qed.

Lemma root_only_path_returns_root_witness :
  Query {| asts := [] |} {| typ := Type_Null; value := Nil |} = Ok Nil /\
  Query {| asts := [] |} {| typ := Type_String; value := Str "a" |}
    = Ok (Str "a") /\
  Query {| asts := [] |} {| typ := Type_Number; value := Float64 7%float |}
    = Ok (Float64 7%float).
Proof.
  split; [|split];
    apply (proj2 root_only_path_returns_root); simpl; discriminate.
Defined.

(** C8. On an empty array the operands [first] and [last] fail with
    index out of range and the operand [length] gives 0. *)
Theorem functions_on_empty_array (p : CompiledJSONPath) (pjson : parsedJSON) :
  Query p pjson = Ok (Slice []) ->
  Query {| asts := asts p ++ [ast_Function "first"] |} pjson
    = Err (E query_index_out_of_range (length (asts p))) /\
  Query {| asts := asts p ++ [ast_Function "last"] |} pjson
    = Err (E query_index_out_of_range (length (asts p))) /\
  Query {| asts := asts p ++ [ast_Function "length"] |} pjson = Ok (Int 0).
Proof.
  intros H. by rewrite !(Query_snoc _ _ _ _ H).
Qed.

Lemma functions_on_empty_array_witness :
  let pjson := {| typ := Type_Array; value := Slice [] |} in
  Query {| asts := [ast_Function "first"] |} pjson
    = Err (E query_index_out_of_range 0) /\
  Query {| asts := [ast_Function "last"] |} pjson
    = Err (E query_index_out_of_range 0) /\
  Query {| asts := [ast_Function "length"] |} pjson = Ok (Int 0).
Proof.
  apply (functions_on_empty_array {| asts := [] |}). reflexivity.
Defined.

(** C10. The operand [length] gives a Go [int], not a [float64]: when a
    path evaluates to an array, the path extended by [.(length)] evaluates
    to the element count, and [QueryAsNumberOrZero] on it returns 0. *)
Theorem length_is_not_a_number
    (p : CompiledJSONPath) (pjson : parsedJSON) (z : list any) :
  Query p pjson = Ok (Slice z) ->
  Query {| asts := asts p ++ [ast_Function "length"] |} pjson
    = Ok (Int (Z.of_nat (length z))) /\
  QueryAsNumberOrZero {| asts := asts p ++ [ast_Function "length"] |} pjson
    = Ok 0%float.
Proof.
  intros H. unfold QueryAsNumberOrZero. by rewrite (Query_snoc _ _ _ _ H).
Qed.

Lemma length_is_not_a_number_witness :
  Compile "$.test.(length)"
    = Ok {| asts := [ast_NameIndexer "test"; ast_Function "length"] |} /\
  Query {| asts := [ast_NameIndexer "test"; ast_Function "length"] |} doc_test
    = Ok (Int 2) /\
  QueryAsNumberOrZero
    {| asts := [ast_NameIndexer "test"; ast_Function "length"] |} doc_test
    = Ok 0%float.
Proof.
  split; [vm_compute; reflexivity|].
  apply (length_is_not_a_number {| asts := [ast_NameIndexer "test"] |} doc_test
           [ Map {[ "abc"%string := Float64 1%float ]};
             Map {[ "abc"%string := Float64 10%float ]} ]).
  vm_compute. reflexivity.
Defined.

(** ** Slices *)

Lemma get_ok (src : list Z) (i : nat) (c : Z) :
  get src i = Ok c <-> src !! i = Some c.
Proof. unfold get. destruct (src !! i); split; congruence. Qed.

Lemma get_lt (src : list Z) (i : nat) :
  (i < length src)%nat -> exists c, get src i = Ok c.
Proof.
  intros [c Hc]%lookup_lt_is_Some_2. exists c. by apply get_ok.
Qed.

Lemma get_middle (pre post : list Z) (x : Z) :
  get (pre ++ x :: post) (length pre) = Ok x.
Proof. unfold get. by rewrite list_lookup_middle. Qed.

Lemma get_shift (pre l : list Z) (k : nat) :
  get (pre ++ l) (length pre + k) = get l k.
Proof. unfold get. by rewrite lookup_app_r, Nat.add_comm, Nat.add_sub by lia. Qed.

Lemma get_drop (src : list Z) (i k : nat) :
  get src (i + k) = get (drop i src) k.
Proof. unfold get. by rewrite lookup_drop. Qed.

Lemma drop_shift (pre l : list Z) (k : nat) :
  drop (length pre + k) (pre ++ l) = drop k l.
Proof. by rewrite drop_app_add. Qed.

Lemma slice_shift (pre l : list Z) (a b : nat) :
  slice (pre ++ l) (length pre + a) (length pre + b) = slice l a b.
Proof.
  unfold slice. rewrite drop_shift. f_equal. lia.
Qed.

Lemma slice_middle (pre mid post : list Z) :
  slice (pre ++ mid ++ post) (length pre) (length pre + length mid) = mid.
Proof.
  unfold slice. rewrite drop_app_length.
  replace (length pre + length mid - length pre)%nat with (length mid) by lia.
  by rewrite take_app_length.
Qed.

(** ** Blank runs and [skipSpaces] *)

Lemma skipSpaces_loop_bounds (rest : list Z) (i len : nat) :
  (i + length rest)%nat = len ->
  (i <= skipSpaces_loop len rest i <= len)%nat.
Proof.
  revert i. induction rest as [|c rest IH]; intros i Hlen; simpl in *; [lia|].
  destruct (negb _ && negb _); [lia|].
  specialize (IH (S i)). lia.
Qed.

Lemma skipSpaces_bounds (src : list Z) (start end_ : nat) :
  (start <= length src)%nat ->
  skipSpaces src start = Ok end_ ->
  (start <= end_ <= length src)%nat.
Proof.
  intros Hs [= <-]. apply skipSpaces_loop_bounds. rewrite length_drop. lia.
Qed.

Lemma skipSpaces_total (src : list Z) (start : nat) :
  exists end_, skipSpaces src start = Ok end_.
Proof. eexists. reflexivity. Qed.

Lemma skipSpaces_loop_run (ws post : list Z) (i len : nat) :
  Forall (fun c => is_blank c = true) ws -> stops_blanks post ->
  len = (i + length ws + length post)%nat ->
  skipSpaces_loop len (ws ++ post) i = (i + length ws)%nat.
Proof.
  intros Hws Hpost. revert i.
  induction Hws as [|c ws Hc Hws IH]; intros i Hlen; simpl.
  - destruct post as [|c post]; simpl in *; [lia|].
    unfold is_blank in Hpost. apply orb_false_iff in Hpost as [-> ->].
    simpl. lia.
  - unfold is_blank in Hc.
    destruct (unicode.IsSpace c), (unicode.IsControl c);
      simpl in *; try discriminate; rewrite IH; simpl in *; lia.
Qed.

(** [skipSpaces] passes over a run of blanks, whatever is before it. *)
Lemma skipSpaces_frame (pre ws post : list Z) :
  Forall (fun c => is_blank c = true) ws -> stops_blanks post ->
  skipSpaces (pre ++ ws ++ post) (length pre)
    = Ok (length pre + length ws)%nat.
Proof.
  intros Hws Hpost. unfold skipSpaces. rewrite drop_app_length.
  f_equal. apply skipSpaces_loop_run; auto. rewrite !length_app. lia.
Qed.

(** Where [skipSpaces] stops inside the text there is no blank. *)
Lemma skipSpaces_loop_stops (rest : list Z) (i len : nat) (c : Z) :
  (i + length rest)%nat = len ->
  rest !! (skipSpaces_loop len rest i - i)%nat = Some c ->
  is_blank c = false.
Proof.
  revert i. induction rest as [|c0 rest IH]; intros i Hlen; simpl in *.
  - by rewrite lookup_nil.
  - unfold is_blank.
    destruct (unicode.IsSpace c0) eqn:E1, (unicode.IsControl c0) eqn:E2; simpl.
    4: { rewrite Nat.sub_diag. simpl. intros [= <-]. by rewrite E1, E2. }
    all: pose proof (skipSpaces_loop_bounds rest (S i) len ltac:(lia));
      replace (skipSpaces_loop len rest (S i) - i)%nat
        with (S (skipSpaces_loop len rest (S i) - S i))%nat by lia;
      simpl; apply IH; lia.
Qed.

Lemma skipSpaces_stops (src : list Z) (start end_ : nat) (c : Z) :
  (start <= length src)%nat ->
  skipSpaces src start = Ok end_ ->
  get src end_ = Ok c ->
  is_blank c = false.
Proof.
  intros Hs [= <-] Hc%get_ok.
  eapply (skipSpaces_loop_stops (drop start src) start (length src)).
  { rewrite length_drop. lia. }
  rewrite lookup_drop.
  pose proof (skipSpaces_loop_bounds (drop start src) start (length src)
                ltac:(rewrite length_drop; lia)).
  rewrite <- Hc. f_equal. lia.
Qed.

(** ** [parseNumber], [parseHex] and [parseBareName] *)

Lemma parseNumber_loop_bounds (rest : list Z) (i : nat) :
  (i <= parseNumber_loop rest i <= i + length rest)%nat.
Proof.
  revert i. induction rest as [|c rest IH]; intros i; simpl; [lia|].
  specialize (IH (S i)).
  destruct ((i =? 0)%nat && (c =? MINUS)); [lia|]. destruct (is_digit c); lia.
Qed.

Lemma parseNumber_bounds (src : list Z) (start end_ : nat) :
  (start <= length src)%nat ->
  parseNumber src start = Ok end_ ->
  (start < end_ <= length src)%nat.
Proof.
  unfold parseNumber. intros Hs.
  pose proof (parseNumber_loop_bounds (drop start src) start) as Hb.
  rewrite length_drop in Hb.
  destruct (Nat.eqb_spec (parseNumber_loop (drop start src) start) start);
    [discriminate|]. intros [= <-]. lia.
Qed.

Lemma parseNumber_loop_run (ds post : list Z) (i : nat) :
  Forall (fun c => is_digit c = true) ds ->
  stops_at is_digit post ->
  (0 < i)%nat ->
  parseNumber_loop (ds ++ post) i = (i + length ds)%nat.
Proof.
  intros Hds Hpost. revert i.
  induction Hds as [|c ds Hc Hds IH]; intros i Hi; simpl.
  - destruct post as [|c post]; simpl in *; [lia|].
    destruct (Nat.eqb_spec i 0); [lia|]. simpl. rewrite Hpost. lia.
  - destruct (Nat.eqb_spec i 0); [lia|]. simpl. rewrite Hc, IH; lia.
Qed.

(** [parseNumber] passes over a run of digits that does not start the text. *)
Lemma parseNumber_frame (pre ds post : list Z) :
  pre <> [] -> ds <> [] ->
  Forall (fun c => is_digit c = true) ds ->
  stops_at is_digit post ->
  parseNumber (pre ++ ds ++ post) (length pre)
    = Ok (length pre + length ds)%nat.
Proof.
  intros Hpre Hne Hds Hpost. unfold parseNumber. rewrite drop_app_length.
  assert (0 < length pre)%nat by (destruct pre; simpl; [done|lia]).
  assert (0 < length ds)%nat by (destruct ds; simpl; [done|lia]).
  rewrite parseNumber_loop_run by done.
  destruct (Nat.eqb_spec (length pre + length ds) (length pre)); [lia|done].
Qed.

(** The minus sign is passed over at position 0 only: anywhere else
    [parseNumber] finds no number at a minus sign. *)
Lemma parseNumber_minus (src : list Z) (start : nat) :
  (0 < start)%nat ->
  get src start = Ok MINUS ->
  parseNumber src start = Err (E parseNumber_empty_expression start).
Proof.
  intros Hs Hc%get_ok. unfold parseNumber.
  rewrite (drop_S _ _ _ Hc). simpl.
  destruct (Nat.eqb_spec start 0); [lia|]. simpl.
  by rewrite Nat.eqb_refl.
Qed.

(** After a position other than 0, what [parseNumber] passes over is
    digits. *)
Lemma parseNumber_loop_digits (rest : list Z) (i : nat) :
  (0 < i)%nat ->
  Forall (fun c => is_digit c = true)
         (take (parseNumber_loop rest i - i) rest).
Proof.
  revert i. induction rest as [|c rest IH]; intros i Hi; simpl.
  - by rewrite take_nil.
  - destruct (Nat.eqb_spec i 0); [lia|]. simpl.
    destruct (is_digit c) eqn:Hc.
    + pose proof (parseNumber_loop_bounds rest (S i)).
      replace (parseNumber_loop rest (S i) - i)%nat
        with (S (parseNumber_loop rest (S i) - S i))%nat by lia.
      simpl. constructor; [done|]. apply IH. lia.
    + rewrite Nat.sub_diag. constructor.
Qed.

Lemma parseNumber_digits (src : list Z) (start end_ : nat) :
  (0 < start)%nat ->
  parseNumber src start = Ok end_ ->
  Forall (fun c => is_digit c = true) (slice src start end_).
Proof.
  unfold parseNumber, slice. intros Hs.
  destruct (Nat.eqb_spec (parseNumber_loop (drop start src) start) start);
    [discriminate|]. intros [= <-]. by apply parseNumber_loop_digits.
Qed.

Lemma parseHex_loop_bounds (rest : list Z) (i : nat) :
  (i <= parseHex_loop rest i <= i + length rest)%nat.
Proof.
  revert i. induction rest as [|c rest IH]; intros i; simpl; [lia|].
  specialize (IH (S i)). destruct (is_hex c); lia.
Qed.

Lemma parseHex_bounds (src : list Z) (start end_ : nat) :
  (start <= length src)%nat ->
  parseHex src start = Ok end_ ->
  (start < end_ <= length src)%nat.
Proof.
  unfold parseHex. intros Hs.
  pose proof (parseHex_loop_bounds (drop start src) start) as Hb.
  rewrite length_drop in Hb.
  destruct (Nat.eqb_spec (parseHex_loop (drop start src) start) start);
    [discriminate|]. intros [= <-]. lia.
Qed.

Lemma parseHex_loop_run (hs post : list Z) (i : nat) :
  Forall (fun c => is_hex c = true) hs ->
  stops_at is_hex post ->
  parseHex_loop (hs ++ post) i = (i + length hs)%nat.
Proof.
  intros Hhs Hpost. revert i.
  induction Hhs as [|c hs Hc Hhs IH]; intros i; simpl.
  - destruct post as [|c post]; simpl in *; [lia|]. rewrite Hpost. lia.
  - rewrite Hc, IH. lia.
Qed.

Lemma parseBareName_loop_bounds (rest : list Z) (i : nat) (buf : list Z) :
  let r := parseBareName_loop rest i buf in
  (i <= snd r <= i + length rest)%nat /\
  (length (fst r) = length buf + (snd r - i))%nat.
Proof.
  revert i buf. induction rest as [|c rest IH]; intros i buf; simpl; [lia|].
  destruct (unicode.IsSpace c || unicode.IsControl c); simpl; [lia|].
  destruct (bare_punct c); simpl; [lia|].
  specialize (IH (S i) (buf ++ [c])). simpl in IH.
  rewrite length_app in IH. simpl in IH. lia.
Qed.

Lemma parseBareName_bounds (src : list Z) (start end_ : nat) (name : string) :
  (start <= length src)%nat ->
  parseBareName src start = Ok (name, end_) ->
  (start < end_ <= length src)%nat.
Proof.
  unfold parseBareName. intros Hs.
  pose proof (parseBareName_loop_bounds (drop start src) start []) as Hb.
  destruct (parseBareName_loop (drop start src) start []) as [buf i].
  simpl in Hb. rewrite length_drop in Hb.
  destruct (Nat.eqb_spec (length buf) 0); [discriminate|].
  intros [= _ <-]. lia.
Qed.

Lemma parseBareName_loop_run (n post : list Z) (i : nat) (buf : list Z) :
  Forall (fun c => bare_char c = true) n ->
  stops_at bare_char post ->
  parseBareName_loop (n ++ post) i buf = (buf ++ n, (i + length n)%nat).
Proof.
  intros Hn Hpost. revert i buf.
  induction Hn as [|c n Hc Hn IH]; intros i buf; simpl.
  - rewrite app_nil_r, Nat.add_0_r.
    destruct post as [|c post]; simpl in *; [done|].
    unfold bare_char, is_blank in Hpost.
    destruct (unicode.IsSpace c || unicode.IsControl c); [done|].
    simpl in Hpost. apply negb_false_iff in Hpost. by rewrite Hpost.
  - unfold bare_char, is_blank in Hc.
    apply andb_true_iff in Hc as [Hc1%negb_true_iff Hc2%negb_true_iff].
    rewrite Hc1, Hc2, IH, <- app_assoc. simpl. f_equal. lia.
Qed.

(** [parseBareName] passes over a run of name characters and returns it. *)
Lemma parseBareName_frame (pre n post : list Z) :
  n <> [] ->
  Forall (fun c => bare_char c = true) n ->
  stops_at bare_char post ->
  parseBareName (pre ++ n ++ post) (length pre)
    = Ok (string_of_runes n, (length pre + length n)%nat).
Proof.
  intros Hne Hn Hpost. unfold parseBareName. rewrite drop_app_length.
  rewrite parseBareName_loop_run by done. simpl.
  destruct n; [done|]. reflexivity.
Qed.

(** ** [parseQuotedName]: progress, bounds and fuel *)

Lemma parseQuotedName_body_progress (src : list Z) (cc : Z) (i : nat)
    (buf : list Z) (i' : nat) (buf' : list Z) :
  (i < length src)%nat ->
  parseQuotedName_body src cc i buf = Ok (Continue (i', buf')) ->
  (i < i')%nat.
Proof.
  intros Hi. unfold parseQuotedName_body, bind, wrap_err.
  intros H.
  repeat case_match; simplify_eq; try lia.
  all: repeat match goal with
       | H : (_ <=? _)%nat = false |- _ => apply Nat.leb_gt in H
       | H : (_ <? _)%nat = false |- _ => apply Nat.ltb_ge in H
       | H : parseHex _ _ = Ok _ |- _ => apply parseHex_bounds in H; [|lia]
       end; lia.
Qed.

Lemma parseQuotedName_loop_bounds (fuel : nat) (src : list Z) (cc : Z)
    (start i : nat) (buf : list Z) (name : string) (end_ : nat) :
  parseQuotedName_loop fuel src cc start i buf = Ok (name, end_) ->
  (i < end_ <= length src)%nat.
Proof.
  revert i buf. induction fuel as [|fuel IH]; intros i buf; simpl; [done|].
  destruct (Nat.leb_spec (length src) i); [done|].
  destruct (parseQuotedName_body src cc i buf) as [[r|[i' buf']]| |] eqn:Hb;
    simpl; try done.
  - intros [= ->]. revert Hb. unfold parseQuotedName_body, bind, wrap_err.
    intros Hb. repeat case_match; simplify_eq; lia.
  - intros H'%IH. apply parseQuotedName_body_progress in Hb; lia.
Qed.

Lemma parseQuotedName_bounds (src : list Z) (cc : Z) (start : nat)
    (name : string) (end_ : nat) :
  parseQuotedName src cc start = Ok (name, end_) ->
  (start < end_ <= length src)%nat.
Proof. apply parseQuotedName_loop_bounds. Qed.

(** Enough fuel: with at least [length src - i] units the loop of
    [parseQuotedName] gives the same result, which is therefore the result
    of the loop of the source. *)
Lemma parseQuotedName_loop_fuel (f1 f2 : nat) (src : list Z) (cc : Z)
    (start i : nat) (buf : list Z) :
  (length src - i <= f1)%nat -> (length src - i <= f2)%nat ->
  parseQuotedName_loop f1 src cc start i buf
    = parseQuotedName_loop f2 src cc start i buf.
Proof.
  revert f2 i buf. induction f1 as [|f1 IH]; intros [|f2] i buf H1 H2; simpl;
    try done.
  - destruct (Nat.leb_spec (length src) i); [done|lia].
  - destruct (Nat.leb_spec (length src) i); [done|lia].
  - destruct (Nat.leb_spec (length src) i); [done|].
    destruct (parseQuotedName_body src cc i buf) as [[r|[i' buf']]| |] eqn:Hb;
      simpl; try done.
    apply parseQuotedName_body_progress in Hb; [|done]. apply IH; lia.
Qed.

(** The equation of the loop of [parseQuotedName] at a position inside the
    text. *)
Lemma parseQuotedName_loop_unfold (fuel : nat) (src : list Z) (cc : Z)
    (start i : nat) (buf : list Z) :
  (i < length src)%nat -> (length src - i <= fuel)%nat ->
  parseQuotedName_loop fuel src cc start i buf =
  bind (parseQuotedName_body src cc i buf) (fun c =>
    match c with
    | Return r => Ok r
    | Continue (i', buf') =>
      parseQuotedName_loop (length src - i') src cc start i' buf'
    end).
Proof.
  intros Hi Hf. destruct fuel as [|fuel]; [lia|]. simpl.
  destruct (Nat.leb_spec (length src) i); [lia|].
  destruct (parseQuotedName_body src cc i buf) as [[r|[i' buf']]| |] eqn:Hb;
    simpl; try done.
  apply parseQuotedName_body_progress in Hb; [|done].
  apply parseQuotedName_loop_fuel; lia.
Qed.

(** ** [compileCore]: progress and fuel *)

Lemma compileCore_body_progress (src : list Z) (i : nat) (acc : list ast)
    (i' : nat) (acc' : list ast) :
  (i < length src)%nat ->
  compileCore_body src i acc = Ok (i', acc') ->
  (i < i' <= length src)%nat.
Proof.
  intros Hi. unfold compileCore_body, bind, wrap_err. intros H.
  repeat case_match; simplify_eq; simpl in *.
  all: repeat match goal with p : (_ * _)%type |- _ => destruct p end;
       simpl in *.
  all: repeat match goal with
       | H : (_ =? _)%nat = false |- _ => apply Nat.eqb_neq in H
       | H : skipSpaces _ _ = Ok _ |- _ =>
         apply skipSpaces_bounds in H; [|lia]
       | H : parseNumber _ _ = Ok _ |- _ =>
         apply parseNumber_bounds in H; [|lia]
       | H : parseBareName _ _ = Ok _ |- _ =>
         apply parseBareName_bounds in H; [|lia]
       | H : parseQuotedName _ _ _ = Ok _ |- _ =>
         apply parseQuotedName_bounds in H
       end; lia.
Qed.

Lemma compileCore_loop_fuel (f1 f2 : nat) (src : list Z) (i : nat)
    (acc : list ast) :
  (length src - i <= f1)%nat -> (length src - i <= f2)%nat ->
  compileCore_loop f1 src i acc = compileCore_loop f2 src i acc.
Proof.
  revert f2 i acc. induction f1 as [|f1 IH]; intros [|f2] i acc H1 H2; simpl;
    try done.
  - destruct (Nat.leb_spec (length src) i); [done|lia].
  - destruct (Nat.leb_spec (length src) i); [done|lia].
  - destruct (Nat.leb_spec (length src) i); [done|].
    destruct (compileCore_body src i acc) as [[i' acc']| |] eqn:Hb;
      simpl; try done.
    apply compileCore_body_progress in Hb; [|done]. apply IH; lia.
Qed.

(** The equations of the loop of [compileCore] with enough fuel. *)
Lemma compile_from_end (src : list Z) (i : nat) (acc : list ast) :
  (length src <= i)%nat -> compile_from src i acc = Ok {| asts := acc |}.
Proof.
  intros Hi. unfold compile_from.
  replace (length src - i)%nat with 0%nat by lia. reflexivity.
Qed.

Lemma compile_from_step (src : list Z) (i : nat) (acc : list ast) :
  (i < length src)%nat ->
  compile_from src i acc =
  bind (compileCore_body src i acc)
       (fun r => compile_from src (fst r) (snd r)).
Proof.
  intros Hi. unfold compile_from.
  destruct (length src - i)%nat as [|f] eqn:Hf; [lia|]. simpl.
  destruct (Nat.leb_spec (length src) i); [lia|].
  destruct (compileCore_body src i acc) as [[i' acc']| |] eqn:Hb;
    simpl; try done.
  apply compileCore_body_progress in Hb; [|done].
  apply compileCore_loop_fuel; lia.
Qed.

Lemma compileCore_from (src : list Z) (root : Z) :
  compileCore src root =
  bind (get src 0) (fun c0 =>
    if negb (c0 =? root) then Err (E compile_path_should_start_with_root 0)
    else compile_from src 1 []).
Proof.
  unfold compileCore, compile_from. destruct (get src 0) as [c0| |] eqn:Hc;
    simpl; try done.
  destruct (negb (c0 =? root)); [done|].
  apply compileCore_loop_fuel; lia.
Qed.

(** ** Strings of runes and [strconv.ParseInt] *)

Lemma of_byte_of (c : Z) : 0 <= c < 256 -> utf8.of_byte (utf8.byte_of c) = c.
Proof.
  intros Hc. unfold utf8.of_byte, utf8.byte_of.
  rewrite N_ascii_embedding.
  - rewrite Z2N.id; [|apply Z.mod_pos_bound; lia]. apply Z.mod_small; lia.
  - apply N2Z.inj_lt. rewrite Z2N.id; [|apply Z.mod_pos_bound; lia].
    change (Z.of_N 256) with 256. apply Z.mod_pos_bound; lia.
Qed.

Lemma bytes_of_string_of_runes (buf : list Z) :
  map utf8.of_byte (list_ascii_of_string (string_of_runes buf))
  = flat_map (fun r => map utf8.of_byte (utf8.EncodeRune r)) buf.
Proof.
  unfold string_of_runes. rewrite list_ascii_of_string_of_list_ascii.
  induction buf as [|r buf IH]; simpl; [done|].
  by rewrite map_app, IH.
Qed.

Lemma EncodeRune_ascii (c : Z) :
  0 <= c <= 127 -> map utf8.of_byte (utf8.EncodeRune c) = [c].
Proof.
  intros Hc. unfold utf8.EncodeRune.
  destruct (Z.leb_spec 0 c), (Z.leb_spec c 127); try lia. simpl.
  by rewrite of_byte_of by lia.
Qed.

Lemma bytes_of_ascii_runes (buf : list Z) :
  Forall (fun c => 0 <= c <= 127) buf ->
  map utf8.of_byte (list_ascii_of_string (string_of_runes buf)) = buf.
Proof.
  intros H. rewrite bytes_of_string_of_runes.
  induction H as [|c buf Hc H IH]; simpl; [done|].
  by rewrite EncodeRune_ascii, IH.
Qed.

Lemma is_digit_ascii (c : Z) : is_digit c = true -> 48 <= c <= 57.
Proof. unfold is_digit. lia. Qed.

Lemma ParseUint_loop_nonneg (base n : Z) (s : list Z) (m : Z) :
  0 <= base -> 0 <= n ->
  strconv.ParseUint_loop base n s = Ok m -> n <= m.
Proof.
  intros Hb. revert n. induction s as [|c s IH]; intros n Hn; simpl.
  - intros [= <-]. lia.
  - unfold strconv.digit_of.
    repeat case_match; try discriminate; simplify_eq.
    + intros H%IH; nia.
    + intros H%IH; [nia|]. 
      assert (0 <= Z.lor c 32 - 97 + 10) by lia. nia.
Qed.

(** A result of [ParseInt] is a 64-bit integer, negative only after a minus
    sign. *)
Lemma ParseInt_range (s : string) (base n : Z) :
  0 <= base ->
  strconv.ParseInt s base = Ok n ->
  - 2 ^ 63 <= n < 2 ^ 63 /\
  (n < 0 ->
   exists bs, map utf8.of_byte (list_ascii_of_string s) = MINUS :: bs).
Proof.
  intros Hb. unfold strconv.ParseInt.
  destruct (map utf8.of_byte (list_ascii_of_string s)) as [|c bs]; [done|].
  unfold bind. destruct (strconv.ParseUint _ base) as [un| |] eqn:Hun; try done.
  assert (0 <= un) as Hpos.
  { unfold strconv.ParseUint in Hun. destruct (if _ : bool then bs else _); [done|].
    by apply ParseUint_loop_nonneg in Hun. }
  destruct (Z.eqb_spec c MINUS) as [->|Hc]; simpl.
  - destruct (Z.ltb_spec (2 ^ 63) un); [done|]. intros [= <-]. split; [lia|eauto].
  - destruct (Z.leb_spec (2 ^ 63) un); [done|]. intros [= <-]. split; lia.
Qed.

Lemma wrap_bits_small (w z : Z) :
  0 < w -> - 2 ^ (w - 1) <= z < 2 ^ (w - 1) -> wrap_bits w z = z.
Proof.
  intros Hw Hz. unfold wrap_bits.
  assert (2 ^ w = 2 * 2 ^ (w - 1)) as ->.
  { rewrite <- Z.pow_succ_r by lia. f_equal. lia. }
  rewrite Z.mod_small; lia.
Qed.

(** ** The compiler produces no negative index *)

(** The operand of a number indexer: after a digit, [parseNumber] and
    [ParseInt] give a number that is not negative. *)
Lemma number_operand_nonneg (src : list Z) (start end_ : nat) (c num : Z) :
  (0 < start)%nat ->
  get src start = Ok c ->
  parseNumber src start = Ok end_ ->
  strconv.ParseInt (string_of_runes (slice src start end_)) 10 = Ok num ->
  0 <= num < 2 ^ 63.
Proof.
  intros Hs Hc Hn Hp.
  assert (start <= length src)%nat as Hle.
  { apply get_ok, lookup_lt_Some in Hc. lia. }
  pose proof (parseNumber_digits _ _ _ Hs Hn) as Hd.
  pose proof (parseNumber_bounds _ _ _ Hle Hn) as Hb.
  apply ParseInt_range in Hp as [Hr Hneg]; [|lia].
  split; [|lia]. destruct (Z.lt_ge_cases num 0) as [Hlt|]; [|done].
  destruct (Hneg Hlt) as [bs Hbs].
  rewrite bytes_of_ascii_runes in Hbs.
  2: { eapply Forall_impl; [exact Hd|]. intros d Hdig%is_digit_ascii. simpl in *. lia. }
  rewrite Hbs in Hd. by inversion Hd.
Qed.

Lemma compileCore_body_nonneg (src : list Z) (i : nat) (acc : list ast)
    (i' : nat) (acc' : list ast) :
  (0 < i < length src)%nat ->
  Forall nonneg_index acc ->
  compileCore_body src i acc = Ok (i', acc') ->
  Forall nonneg_index acc'.
Proof.
  intros Hi Hacc. unfold compileCore_body, bind, wrap_err. intros H.
  repeat case_match; simplify_eq; simpl in *; try done.
  all: apply Forall_app; split; [done|]; constructor; [|done];
       unfold nonneg_index; simpl; try done.
  match goal with
  | H1 : skipSpaces _ (i + 1) = Ok ?s, H2 : parseNumber _ ?s = Ok _,
    H3 : strconv.ParseInt _ _ = Ok ?n, H4 : get _ ?s = Ok _ |- _ =>
    apply skipSpaces_bounds in H1; [|lia];
    assert (0 < s)%nat as Hpos by lia;
    pose proof (number_operand_nonneg _ _ _ _ _ Hpos H4 H2 H3)
  end.
  unfold int_of_int64.
  match goal with H : 0 <= _ < 2 ^ 63 |- _ =>
    rewrite wrap_bits_small; [|lia|change (64 - 1) with 63]; clear -H; lia
  end.
Qed.

Lemma compileCore_loop_nonneg (fuel : nat) (src : list Z) (i : nat)
    (acc : list ast) (p : CompiledJSONPath) :
  (0 < i)%nat ->
  Forall nonneg_index acc ->
  compileCore_loop fuel src i acc = Ok p ->
  Forall nonneg_index (asts p).
Proof.
  revert i acc. induction fuel as [|fuel IH]; intros i acc Hi Hacc; simpl.
  - by intros [= <-].
  - destruct (Nat.leb_spec (length src) i); [by intros [= <-]|].
    destruct (compileCore_body src i acc) as [[i' acc']| |] eqn:Hb;
      simpl; try done.
    assert (i < length src)%nat as Hlt by lia.
    pose proof (compileCore_body_progress _ _ _ _ _ Hlt Hb).
    apply IH; [lia|]. eapply compileCore_body_nonneg; [|done..]. lia.
Qed.

Lemma compileCore_nonneg (src : list Z) (root : Z) (p : CompiledJSONPath) :
  compileCore src root = Ok p -> Forall nonneg_index (asts p).
Proof.
  unfold compileCore, bind. destruct (get src 0); try done.
  destruct (negb _); [done|]. apply compileCore_loop_nonneg; [lia|constructor].
Qed.

(** ** The evaluator panics on no path the compiler produces *)

Lemma Query_step_no_panic (i : nat) (a : ast) (v : any) :
  nonneg_index a -> Query_step i a v <> Panic.
Proof.
  unfold nonneg_index, Query_step, index_slice. intros Ha.
  repeat case_match; try done; exfalso.
  all: repeat match goal with
       | H : _ !! _ = None |- _ => apply lookup_ge_None in H
       | H : (_ =? _) = false |- _ => apply Z.eqb_neq in H
       end; lia.
Qed.

Lemma Query_loop_no_panic (steps : list ast) (i : nat) (v : any) :
  Forall nonneg_index steps -> Query_loop i steps v <> Panic.
Proof.
  intros H. revert i v. induction H as [|a steps Ha H IH]; intros i v; simpl.
  - done.
  - destruct (Query_step i a v) eqn:Hs; simpl; [apply IH|done|].
    by apply Query_step_no_panic in Hs.
Qed.

Lemma Query_no_panic (p : CompiledJSONPath) (pjson : parsedJSON) :
  Forall nonneg_index (asts p) -> Query p pjson <> Panic.
Proof.
  intros H. unfold Query. destruct (typ pjson); try done;
    by apply Query_loop_no_panic.
Qed.

(** ** Claims on the compiler and the accessors *)

#[local] Arguments skipSpaces : simpl never.
#[local] Arguments parseNumber : simpl never.
#[local] Arguments parseHex : simpl never.
#[local] Arguments parseBareName : simpl never.
#[local] Arguments parseQuotedName : simpl never.
#[local] Arguments get : simpl never.
#[local] Arguments string_of_runes : simpl never.
#[local] Arguments slice : simpl never.

(** C3. [compileCore] reads [src[0]] before any test of the length: on
    the empty path text [Compile] does not return an error, it panics. *)
Theorem compile_empty_path_panics : Compile EmptyString = Panic.
Proof. reflexivity. Qed.

(** C5. The four texts of the name [abc] (plain, two-digit escapes,
    four-digit escapes, braced escapes) compile to the same single step. *)
Theorem escape_decoding_equivalence :
  let abc := Ok {| asts := [ast_NameIndexer "abc"] |} in
  Compile ("$[" +:+ dq +:+ "abc" +:+ dq +:+ "]") = abc /\
  Compile ("$[" +:+ dq +:+ bsl +:+ "x61" +:+ bsl +:+ "x62" +:+ bsl +:+ "x63"
             +:+ dq +:+ "]") = abc /\
  Compile ("$[" +:+ dq +:+ bsl +:+ "u0061" +:+ bsl +:+ "u0062" +:+ bsl
             +:+ "u0063" +:+ dq +:+ "]") = abc /\
  Compile ("$[" +:+ dq +:+ bsl +:+ "u{61}" +:+ bsl +:+ "u{062}" +:+ bsl
             +:+ "u{0063}" +:+ dq +:+ "]") = abc.
Proof. repeat split; vm_compute; reflexivity. Qed.

(** C2. A minus sign after an opening bracket is never compiled: wherever
    the loop of [compileCore] meets an opening bracket followed, after any
    blanks, by a minus sign, it fails with bad number expression, because
    [parseNumber] passes over a minus sign at position 0 only.  So
    [$[-N]] fails for every [N]. *)
Theorem negative_bracket_index_is_rejected
    (pre ws rest : list Z) (acc : list ast) (fuel : nat) :
  Forall (fun c => is_blank c = true) ws ->
  compileCore_loop (S fuel) (pre ++ LBRACKET :: ws ++ MINUS :: rest)
                   (length pre) acc
    = Err (E compile_bad_number_expression (length pre + 1 + length ws)) /\
  compileCore (DOLLAR :: LBRACKET :: MINUS :: rest) DOLLAR
    = Err (E compile_bad_number_expression 2).
Proof.
  intros Hws.
  assert (forall pre ws fuel acc, Forall (fun c => is_blank c = true) ws ->
            compileCore_loop (S fuel) (pre ++ LBRACKET :: ws ++ MINUS :: rest)
              (length pre) acc
            = Err (E compile_bad_number_expression (length pre + 1 + length ws)))
    as Hgen.
  { clear. intros pre ws fuel acc Hws. cbn [compileCore_loop].
    destruct (Nat.leb_spec (length (pre ++ LBRACKET :: ws ++ MINUS :: rest))
                           (length pre)) as [Hle|_].
    { rewrite length_app in Hle. simpl in Hle. lia. }
    unfold compileCore_body. rewrite get_middle. cbn.
    replace (pre ++ LBRACKET :: ws ++ MINUS :: rest)
      with ((pre ++ [LBRACKET]) ++ ws ++ MINUS :: rest)
      by (by rewrite <- app_assoc).
    replace (length pre + 1)%nat with (length (pre ++ [LBRACKET]))
      by (rewrite length_app; simpl; lia).
    rewrite skipSpaces_frame by done. cbn.
    set (src := (pre ++ [LBRACKET]) ++ ws ++ MINUS :: rest).
    set (start := (length (pre ++ [LBRACKET]) + length ws)%nat).
    assert (get src start = Ok MINUS) as Hget.
    { unfold src, start. rewrite app_assoc, <- length_app. apply get_middle. }
    assert (start <> length src) as Hne.
    { unfold src, start. rewrite !length_app. simpl. lia. }
    destruct (Nat.eqb_spec start (length src)); [done|].
    rewrite Hget. cbn.
    rewrite parseNumber_minus; [|unfold start; rewrite length_app; simpl; lia|done].
    cbn. do 2 f_equal. }
  split; [by apply Hgen|].
  unfold compileCore. cbn -[compileCore_loop].
  apply (Hgen [DOLLAR] [] (length rest + 2)%nat []). constructor.
Qed.

Lemma negative_bracket_index_is_rejected_witness :
  Compile "$[-1]" = Err (E compile_bad_number_expression 2) /\
  Compile "$.foo[ -1]" = Err (E compile_bad_number_expression 7).
Proof.
  split.
  - apply (proj2 (negative_bracket_index_is_rejected [] [] [49; RBRACKET] [] 0
                    (List.Forall_nil _))).
  - vm_compute. reflexivity.
Defined.






(** ** [parseQuotedName] reads the quoted text only *)

Lemma get_frame (pre l post : list Z) (j : nat) (c : Z) :
  get l j = Ok c -> get (pre ++ l ++ post) (length pre + j) = Ok c.
Proof.
  intros H%get_ok. rewrite get_shift. apply get_ok.
  by apply lookup_app_l_Some.
Qed.

Lemma parseHex_loop_shift (r : list Z) (p j : nat) :
  parseHex_loop r (p + j) = (p + parseHex_loop r j)%nat.
Proof.
  revert j. induction r as [|c r IH]; intros j; simpl; [done|].
  destruct (is_hex c); [|done]. by rewrite <- IH, Nat.add_succ_r.
Qed.

Lemma parseHex_loop_app (r post : list Z) (j : nat) :
  (parseHex_loop r j < j + length r)%nat ->
  parseHex_loop (r ++ post) j = parseHex_loop r j.
Proof.
  revert j. induction r as [|c r IH]; intros j; simpl; [lia|].
  destruct (is_hex c); [|done]. intros H. apply IH. lia.
Qed.

Lemma parseHex_frame (pre l post : list Z) (j e : nat) :
  parseHex l j = Ok e -> (e < length l)%nat ->
  parseHex (pre ++ l ++ post) (length pre + j) = Ok (length pre + e)%nat.
Proof.
  unfold parseHex. intros H He.
  destruct (Nat.eqb_spec (parseHex_loop (drop j l) j) j) as [|Hne]; [done|].
  injection H as <-.
  pose proof (parseHex_loop_bounds (drop j l) j) as Hb.
  assert (j <= length l)%nat as Hj.
  { destruct (Nat.le_gt_cases j (length l)); [done|].
    rewrite drop_ge in Hne by lia. done. }
  rewrite drop_shift, drop_app_le by done.
  rewrite parseHex_loop_shift, parseHex_loop_app
    by (rewrite length_drop; lia).
  destruct (Nat.eqb_spec (length pre + parseHex_loop (drop j l) j)
                         (length pre + j)); [lia|done].
Qed.

Lemma slice_frame (pre l post : list Z) (a b : nat) :
  (b <= length l)%nat ->
  slice (pre ++ l ++ post) (length pre + a) (length pre + b) = slice l a b.
Proof.
  intros Hb. rewrite slice_shift. unfold slice.
  destruct (Nat.le_gt_cases a (length l)).
  - rewrite drop_app_le by done. apply take_app_le. rewrite length_drop. lia.
  - replace (b - a)%nat with 0%nat by lia. done.
Qed.

Lemma leb_frame (pre l post : list Z) (j : nat) :
  (length l <=? j)%nat = false ->
  (length (pre ++ l ++ post) <=? length pre + j)%nat = false.
Proof.
  intros H%Nat.leb_gt. apply Nat.leb_gt. rewrite !length_app. lia.
Qed.

Lemma get_bound (l : list Z) (j : nat) (c : Z) :
  get l j = Ok c -> (j < length l)%nat.
Proof. intros H%get_ok. by eapply lookup_lt_Some. Qed.

(** One iteration gives the same result, moved, when the text is put
    between two others, provided it goes on inside the text. *)
Lemma parseQuotedName_body_frame (pre l post : list Z) (cc : Z) (i : nat)
    (buf : list Z) (c : loop_ctl (string * nat) (nat * list Z)) :
  parseQuotedName_body l cc i buf = Ok c ->
  goes_on_inside l c ->
  parseQuotedName_body (pre ++ l ++ post) cc (length pre + i) buf
    = Ok (shift_ctl (length pre) c).
Proof.
  intros H Hin. unfold parseQuotedName_body, bind, wrap_err in H.
  repeat case_match; simplify_eq; simpl in Hin.
  all: unfold parseQuotedName_body.
  all: repeat match goal with
       | H : get ?x _ = Ok _ |- _ =>
         is_var x;
         pose proof (get_bound _ _ _ H);
         apply (get_frame pre _ post) in H
       | H : (length ?x <=? _)%nat = false |- _ =>
         is_var x;
         pose proof (proj1 (Nat.leb_gt _ _) H);
         apply (leb_frame pre _ post) in H
       | H : (_ <? _)%nat = false |- _ => apply Nat.ltb_ge in H
       | H : negb (_ =? _)%nat = false |- _ =>
         apply negb_false_iff, Nat.eqb_eq in H
       | H : (_ =? _)%nat = false |- _ => apply Nat.eqb_neq in H
       end.
  all: repeat match goal with
       | H : parseHex ?x ?j = Ok ?e |- _ =>
         is_var x;
         let Hb := fresh "Hb" in
         assert (j < e <= length x)%nat as Hb
           by (apply parseHex_bounds; [lia|exact H]);
         apply (parseHex_frame pre _ post) in H; [|lia]
       end.
  all: assert (length (pre ++ l ++ post)
               = length pre + length l + length post)%nat as Hlen
         by (rewrite !length_app; lia).
  all: rewrite <- ?Nat.add_assoc.
  all: repeat (progress (cbn [bind wrap_err negb];
         repeat match goal with
         | H : get _ _ = Ok _ |- _ => rewrite H
         | H : parseHex _ _ = Ok _ |- _ => rewrite H
         | H : (_ <=? _)%nat = false |- _ => rewrite H
         | H : (_ =? _) = _ |- _ => rewrite H
         | H : (_ || _) = _ |- _ => rewrite H
         | H : strconv.ParseInt _ _ = _ |- _ => rewrite H
         | H : negb _ = _ |- _ => rewrite H
         | |- context [slice (_ ++ _ ++ _) (length _ + _) (length _ + _)] =>
           rewrite slice_frame by lia
         | |- context [(?a =? ?b)%nat] =>
           destruct (Nat.eqb_spec a b); [exfalso; lia|]
         | |- context [(?a =? ?b)%nat] =>
           destruct (Nat.eqb_spec a b); [|exfalso; lia]
         | |- context [(?a <? ?b)%nat] =>
           destruct (Nat.ltb_spec a b); [exfalso; lia|]
         end)).
  all: simpl; do 3 f_equal; lia.
Qed.

Lemma parseQuotedName_loop_frame (f : nat) (l : list Z) (cc : Z)
    (start i : nat) (buf : list Z) (name : string) (e : nat)
    (pre post : list Z) (f' start' : nat) :
  parseQuotedName_loop f l cc start i buf = Ok (name, e) ->
  (length (pre ++ l ++ post) - (length pre + i) <= f')%nat ->
  parseQuotedName_loop f' (pre ++ l ++ post) cc start' (length pre + i) buf
    = Ok (name, (length pre + e)%nat).
Proof.
  revert i buf f'. induction f as [|f IH]; intros i buf f'; simpl; [done|].
  destruct (Nat.leb_spec (length l) i) as [|Hi]; [done|].
  destruct (parseQuotedName_body l cc i buf) as [c| |] eqn:Hb; simpl; try done.
  intros Hloop Hf'.
  assert (length (pre ++ l ++ post)
          = length pre + length l + length post)%nat as Hlen
    by (rewrite !length_app; lia).
  assert (goes_on_inside l c) as Hin.
  { destruct c as [r|[i' buf']]; simpl; [done|].
    apply parseQuotedName_loop_bounds in Hloop. lia. }
  destruct f' as [|f']; [lia|]. simpl.
  destruct (Nat.leb_spec (length (pre ++ l ++ post)) (length pre + i));
    [lia|].
  rewrite (parseQuotedName_body_frame pre l post _ _ _ _ Hb Hin). simpl.
  destruct c as [[name' e']|[i' buf']]; simpl.
  - by injection Hloop as -> ->.
  - apply IH; [done|].
    apply parseQuotedName_body_progress in Hb; [|done]. lia.
Qed.

(** A quoted name is read the same way wherever its text stands: what
    [parseQuotedName] returns on a text it returns, moved, on every text
    that holds this one. *)
Lemma parseQuotedName_frame (l : list Z) (cc : Z) (start : nat)
    (name : string) (e : nat) (pre post : list Z) :
  parseQuotedName l cc start = Ok (name, e) ->
  parseQuotedName (pre ++ l ++ post) cc (length pre + start)
    = Ok (name, (length pre + e)%nat).
Proof.
  intros H. unfold parseQuotedName in *.
  eapply parseQuotedName_loop_frame; [exact H|lia].
Qed.

(** ** The compiler passes over blanks *)

Lemma all_blank_Forall (ws : list Z) :
  all_blank ws = true -> Forall (fun c => is_blank c = true) ws.
Proof. unfold all_blank. intros H. apply Forall_forall. intros c Hc%list_elem_of_In. by eapply forallb_forall in H. Qed.

Lemma length_middle (pre mid post : list Z) :
  (length pre + length mid <= length (pre ++ mid ++ post))%nat.
Proof. rewrite !length_app. lia. Qed.

(** An iteration of the compiler at a blank goes to the end of the run of
    blanks, with the same steps. *)
Lemma compileCore_body_blank (pre ws post : list Z) (w : Z) (acc : list ast) :
  is_blank w = true ->
  Forall (fun c => is_blank c = true) ws -> stops_blanks post ->
  compileCore_body (pre ++ (w :: ws) ++ post) (length pre) acc
    = Ok ((length pre + length (w :: ws))%nat, acc).
Proof.
  intros Hw Hws Hpost. unfold compileCore_body.
  change ((w :: ws) ++ post) with (w :: ws ++ post).
  rewrite get_middle. cbn [bind].
  unfold is_blank in Hw. rewrite Hw.
  replace (pre ++ w :: ws ++ post) with ((pre ++ [w]) ++ ws ++ post)
    by (by rewrite <- app_assoc).
  replace (length pre + 1)%nat with (length (pre ++ [w]))
    by (rewrite length_app; simpl; lia).
  rewrite skipSpaces_frame by done. cbn [wrap_err bind].
  do 2 f_equal. rewrite length_app. simpl. lia.
Qed.

Lemma compile_from_blanks (pre ws post : list Z) (acc : list ast) :
  Forall (fun c => is_blank c = true) ws -> stops_blanks post ->
  compile_from (pre ++ ws ++ post) (length pre) acc
  = compile_from (pre ++ ws ++ post) (length pre + length ws) acc.
Proof.
  intros Hws Hpost. destruct Hws as [|w ws Hw Hws].
  - simpl. by rewrite Nat.add_0_r.
  - rewrite compile_from_step.
    2: { rewrite !length_app. simpl. lia. }
    by rewrite compileCore_body_blank.
Qed.

(** ** The compiler on one selector *)

(** The scanners at a position given as the length of what is before it. *)
Lemma get_at (src pre post : list Z) (c : Z) (p : nat) :
  src = pre ++ c :: post -> p = length pre -> get src p = Ok c.
Proof. intros -> ->. apply get_middle. Qed.

Lemma skipSpaces_at (src pre ws post : list Z) (p : nat) :
  src = pre ++ ws ++ post -> p = length pre ->
  Forall (fun c => is_blank c = true) ws -> stops_blanks post ->
  skipSpaces src p = Ok (p + length ws)%nat.
Proof. intros -> ->. apply skipSpaces_frame. Qed.

Lemma parseNumber_at (src pre ds post : list Z) (p : nat) :
  src = pre ++ ds ++ post -> p = length pre ->
  pre <> [] -> ds <> [] ->
  Forall (fun c => is_digit c = true) ds -> stops_at is_digit post ->
  parseNumber src p = Ok (p + length ds)%nat.
Proof. intros -> ->. apply parseNumber_frame. Qed.

Lemma parseBareName_at (src pre n post : list Z) (p : nat) :
  src = pre ++ n ++ post -> p = length pre ->
  n <> [] ->
  Forall (fun c => bare_char c = true) n -> stops_at bare_char post ->
  parseBareName src p = Ok (string_of_runes n, (p + length n)%nat).
Proof. intros -> ->. apply parseBareName_frame. Qed.

Lemma parseQuotedName_at (src pre l post : list Z) (cc : Z) (p : nat)
    (name : string) (e : nat) :
  src = pre ++ l ++ post -> p = length pre ->
  parseQuotedName l cc 0 = Ok (name, e) ->
  parseQuotedName src cc p = Ok (name, (p + e)%nat).
Proof.
  intros -> -> H. rewrite <- (Nat.add_0_r (length pre)) at 1.
  by apply parseQuotedName_frame.
Qed.

Lemma slice_at (src pre mid post : list Z) (a b : nat) :
  src = pre ++ mid ++ post -> a = length pre -> b = (a + length mid)%nat ->
  slice src a b = mid.
Proof. intros -> -> ->. apply slice_middle. Qed.

Ltac list_eq :=
  repeat first [rewrite <- app_assoc | progress cbn [app]]; reflexivity.
Ltac len_eq :=
  repeat first [rewrite length_app | progress cbn [length]]; lia.

Lemma stops_blank_cons (c : Z) (post : list Z) :
  is_blank c = false -> stops_blanks (c :: post).
Proof. done. Qed.

Lemma stops_blanks_app (ws post : list Z) (c : Z) :
  is_blank c = false -> stops_blanks (ws ++ c :: post) \/ ws <> [].
Proof. destruct ws; [left; done|right; done]. Qed.

Lemma stops_at_app_blank (class : Z -> bool) (ws post : list Z) :
  (forall c, is_blank c = true -> class c = false) ->
  Forall (fun c => is_blank c = true) ws ->
  stops_at class post ->
  stops_at class (ws ++ post).
Proof.
  intros Hcl Hws Hpost. destruct Hws as [|w ws Hw Hws]; [done|].
  simpl. by apply Hcl.
Qed.

Lemma blank_not_digit (c : Z) : is_blank c = true -> is_digit c = false.
Proof.
  unfold is_blank, is_digit, unicode.IsSpace, unicode.IsControl.
  destruct ((0 <=? c) && (c <=? 255)) eqn:E; lia.
Qed.

Lemma blank_not_bare (c : Z) : is_blank c = true -> bare_char c = false.
Proof. unfold bare_char. by intros ->. Qed.

Lemma digit_not_blank (c : Z) : is_digit c = true -> is_blank c = false.
Proof.
  unfold is_blank, is_digit, unicode.IsSpace, unicode.IsControl.
  destruct ((0 <=? c) && (c <=? 255)) eqn:E; lia.
Qed.

Lemma bare_not_blank (c : Z) : bare_char c = true -> is_blank c = false.
Proof. unfold bare_char. intros [H _]%andb_true_iff. by apply negb_true_iff. Qed.

(** [[N]]: one iteration reads the selector up to the closing bracket. *)
Lemma compileCore_body_number (pre b1 ds b2 post : list Z) (acc : list ast)
    (num : Z) :
  Forall (fun c => is_blank c = true) b1 ->
  Forall (fun c => is_blank c = true) b2 ->
  ds <> [] -> Forall (fun c => is_digit c = true) ds ->
  strconv.ParseInt (string_of_runes ds) 10 = Ok num ->
  compileCore_body (pre ++ (LBRACKET :: b1 ++ ds ++ b2 ++ [RBRACKET]) ++ post)
                   (length pre) acc
  = Ok ((length pre + length (LBRACKET :: b1 ++ ds ++ b2 ++ [RBRACKET]))%nat,
        acc ++ [ast_NumberIndexer (int_of_int64 num)]).
Proof.
  intros Hb1 Hb2 Hne Hds Hnum.
  set (src := pre ++ (LBRACKET :: b1 ++ ds ++ b2 ++ [RBRACKET]) ++ post).
  destruct ds as [|d ds']; [done|]. set (ds := d :: ds') in *.
  assert (is_digit d = true) as Hd by (by inversion Hds).
  unfold compileCore_body.
  rewrite (get_at src pre (b1 ++ ds ++ b2 ++ [RBRACKET] ++ post) LBRACKET)
    by (unfold src; first [list_eq | len_eq]).
  cbn [bind]. change (unicode.IsSpace 91 || unicode.IsControl 91) with false.
  cbn iota. change (91 =? 91) with true. cbn iota.
  rewrite (skipSpaces_at src (pre ++ [LBRACKET]) b1
             (ds ++ b2 ++ [RBRACKET] ++ post))
    by (first [unfold src; list_eq | len_eq | done
              | by apply stops_blank_cons, digit_not_blank]).
  cbn [wrap_err bind].
  destruct (Nat.eqb_spec (length pre + 1 + length b1) (length src)) as [He|_].
  { exfalso. unfold src, ds in He. revert He. len_eq. }
  rewrite (get_at src (pre ++ LBRACKET :: b1)
             (ds' ++ b2 ++ [RBRACKET] ++ post) d)
    by (unfold src, ds; first [list_eq | len_eq]).
  cbn [bind]. rewrite Hd. cbn [orb].
  rewrite (parseNumber_at src (pre ++ LBRACKET :: b1) ds
             (b2 ++ [RBRACKET] ++ post)).
  2: unfold src; list_eq. 2: len_eq. 2: by destruct pre. 2: done. 2: done.
  2: { apply stops_at_app_blank; [apply blank_not_digit|done|done]. }
  cbn [wrap_err bind].
  rewrite (slice_at src (pre ++ LBRACKET :: b1) ds (b2 ++ [RBRACKET] ++ post))
    by (first [unfold src; list_eq | len_eq]).
  rewrite Hnum. cbn [wrap_err bind fst snd].
  rewrite (skipSpaces_at src (pre ++ LBRACKET :: b1 ++ ds) b2
             ([RBRACKET] ++ post))
    by (first [unfold src; list_eq | len_eq | done]).
  cbn [wrap_err bind].
  destruct (Nat.eqb_spec (length pre + 1 + length b1 + length ds + length b2)
                         (length src)) as [He|_].
  { exfalso. unfold src in He. revert He. len_eq. }
  rewrite (get_at src (pre ++ LBRACKET :: b1 ++ ds ++ b2) post RBRACKET)
    by (unfold src; first [list_eq | len_eq]).
  cbn [bind]. change (negb (93 =? 93)) with false. cbn iota.
  do 2 f_equal. len_eq.
Qed.

(** [['name']]: one iteration reads the selector up to the closing
    bracket. *)
Lemma compileCore_body_quoted (pre b1 text b2 post : list Z) (cc : Z)
    (acc : list ast) (name : string) :
  Forall (fun c => is_blank c = true) b1 ->
  Forall (fun c => is_blank c = true) b2 ->
  cc = SQUOTE \/ cc = DQUOTE ->
  parseQuotedName (text ++ [cc]) cc 0 = Ok (name, (length text + 1)%nat) ->
  compileCore_body
    (pre ++ (LBRACKET :: b1 ++ cc :: text ++ cc :: b2 ++ [RBRACKET]) ++ post)
    (length pre) acc
  = Ok ((length pre
         + length (LBRACKET :: b1 ++ cc :: text ++ cc :: b2 ++ [RBRACKET]))%nat,
        acc ++ [ast_NameIndexer name]).
Proof.
  intros Hb1 Hb2 Hcc Hq.
  set (src := pre ++ (LBRACKET :: b1 ++ cc :: text ++ cc :: b2 ++ [RBRACKET])
                  ++ post).
  assert (is_blank cc = false /\ is_digit cc || (cc =? MINUS) = false
          /\ (cc =? SQUOTE) || (cc =? DQUOTE) = true) as (Hc1 & Hc2 & Hc3).
  { by destruct Hcc as [-> | ->]. }
  unfold compileCore_body.
  rewrite (get_at src pre
             (b1 ++ cc :: text ++ cc :: b2 ++ [RBRACKET] ++ post) LBRACKET)
    by (unfold src; first [list_eq | len_eq]).
  cbn [bind]. change (unicode.IsSpace 91 || unicode.IsControl 91) with false.
  cbn iota. change (91 =? 91) with true. cbn iota.
  rewrite (skipSpaces_at src (pre ++ [LBRACKET]) b1
             (cc :: text ++ cc :: b2 ++ [RBRACKET] ++ post))
    by (first [unfold src; list_eq | len_eq | done]).
  cbn [wrap_err bind].
  destruct (Nat.eqb_spec (length pre + 1 + length b1) (length src)) as [He|_].
  { exfalso. unfold src in He. revert He. len_eq. }
  rewrite (get_at src (pre ++ LBRACKET :: b1)
             (text ++ cc :: b2 ++ [RBRACKET] ++ post) cc)
    by (unfold src; first [list_eq | len_eq]).
  cbn [bind]. rewrite Hc2, Hc3.
  rewrite (parseQuotedName_at src (pre ++ LBRACKET :: b1 ++ [cc])
             (text ++ [cc]) (b2 ++ [RBRACKET] ++ post) cc _ name
             (length text + 1)%nat)
    by (first [unfold src; list_eq | len_eq | done]).
  cbn [wrap_err bind fst snd].
  rewrite (skipSpaces_at src (pre ++ LBRACKET :: b1 ++ cc :: text ++ [cc]) b2
             ([RBRACKET] ++ post))
    by (first [unfold src; list_eq | len_eq | done]).
  cbn [wrap_err bind].
  destruct (Nat.eqb_spec
              (length pre + 1 + length b1 + 1 + (length text + 1) + length b2)
              (length src)) as [He|_].
  { exfalso. unfold src in He. revert He. len_eq. }
  rewrite (get_at src (pre ++ LBRACKET :: b1 ++ cc :: text ++ cc :: b2)
             post RBRACKET)
    by (unfold src; first [list_eq | len_eq]).
  cbn [bind]. change (negb (93 =? 93)) with false. cbn iota.
  do 2 f_equal. len_eq.
Qed.

Lemma bare_char_facts (c : Z) :
  bare_char c = true ->
  is_blank c = false /\ (c =? LPAREN) = false.
Proof.
  intros H. split; [by apply bare_not_blank|].
  unfold bare_char, bare_punct in H. lia.
Qed.

Lemma starts_selector_stops (post : list Z) :
  starts_selector post -> stops_blanks post /\ stops_at bare_char post.
Proof.
  destruct post as [|c post]; [done|]. by intros [-> | ->].
Qed.

(** [.name]: one iteration reads the selector and the blanks after it. *)
Lemma compileCore_body_name (pre b1 n b2 post : list Z) (acc : list ast) :
  Forall (fun c => is_blank c = true) b1 ->
  Forall (fun c => is_blank c = true) b2 ->
  n <> [] -> Forall (fun c => bare_char c = true) n ->
  starts_selector post ->
  compileCore_body (pre ++ (DOT :: b1 ++ n ++ b2) ++ post) (length pre) acc
  = Ok ((length pre + length (DOT :: b1 ++ n ++ b2))%nat,
        acc ++ [ast_NameIndexer (string_of_runes n)]).
Proof.
  intros Hb1 Hb2 Hne Hn [Hp1 Hp2]%starts_selector_stops.
  set (src := pre ++ (DOT :: b1 ++ n ++ b2) ++ post).
  destruct n as [|c n']; [done|]. set (n := c :: n') in *.
  assert (bare_char c = true) as Hc by (by inversion Hn).
  destruct (bare_char_facts c Hc) as [Hc1 Hc2].
  unfold compileCore_body.
  rewrite (get_at src pre (b1 ++ n ++ b2 ++ post) DOT)
    by (unfold src; first [list_eq | len_eq]).
  cbn [bind]. change (unicode.IsSpace 46 || unicode.IsControl 46) with false.
  cbn iota. change (46 =? 91) with false. change (46 =? 46) with true.
  cbn iota.
  rewrite (skipSpaces_at src (pre ++ [DOT]) b1 (n ++ b2 ++ post))
    by (first [unfold src; list_eq | len_eq | done]).
  cbn [wrap_err bind].
  destruct (Nat.eqb_spec (length pre + 1 + length b1) (length src)) as [He|_].
  { exfalso. unfold src, n in He. revert He. len_eq. }
  rewrite (get_at src (pre ++ DOT :: b1) (n' ++ b2 ++ post) c)
    by (unfold src, n; first [list_eq | len_eq]).
  cbn [bind]. rewrite Hc2.
  rewrite (parseBareName_at src (pre ++ DOT :: b1) n (b2 ++ post)).
  2: unfold src; list_eq. 2: len_eq. 2: done. 2: done.
  2: { apply stops_at_app_blank; [apply blank_not_bare|done|done]. }
  cbn [wrap_err bind fst snd].
  rewrite (skipSpaces_at src (pre ++ DOT :: b1 ++ n) b2 post)
    by (first [unfold src; list_eq | len_eq | done]).
  cbn [wrap_err bind].
  do 2 f_equal. len_eq.
Qed.

(** [.(name)]: one iteration reads the selector up to the closing
    parenthesis. *)
Lemma compileCore_body_function (pre b1 b2 n b3 post : list Z)
    (acc : list ast) :
  Forall (fun c => is_blank c = true) b1 ->
  Forall (fun c => is_blank c = true) b2 ->
  Forall (fun c => is_blank c = true) b3 ->
  n <> [] -> Forall (fun c => bare_char c = true) n ->
  compileCore_body
    (pre ++ (DOT :: b1 ++ LPAREN :: b2 ++ n ++ b3 ++ [RPAREN]) ++ post)
    (length pre) acc
  = Ok ((length pre
         + length (DOT :: b1 ++ LPAREN :: b2 ++ n ++ b3 ++ [RPAREN]))%nat,
        acc ++ [ast_Function (string_of_runes n)]).
Proof.
  intros Hb1 Hb2 Hb3 Hne Hn.
  set (src := pre ++ (DOT :: b1 ++ LPAREN :: b2 ++ n ++ b3 ++ [RPAREN])
                  ++ post).
  destruct n as [|c n']; [done|]. set (n := c :: n') in *.
  assert (bare_char c = true) as Hc by (by inversion Hn).
  destruct (bare_char_facts c Hc) as [Hc1 Hc2].
  unfold compileCore_body.
  rewrite (get_at src pre
             (b1 ++ LPAREN :: b2 ++ n ++ b3 ++ [RPAREN] ++ post) DOT)
    by (unfold src; first [list_eq | len_eq]).
  cbn [bind]. change (unicode.IsSpace 46 || unicode.IsControl 46) with false.
  cbn iota. change (46 =? 91) with false. change (46 =? 46) with true.
  cbn iota.
  rewrite (skipSpaces_at src (pre ++ [DOT]) b1
             (LPAREN :: b2 ++ n ++ b3 ++ [RPAREN] ++ post))
    by (first [unfold src; list_eq | len_eq | done]).
  cbn [wrap_err bind].
  destruct (Nat.eqb_spec (length pre + 1 + length b1) (length src)) as [He|_].
  { exfalso. unfold src, n in He. revert He. len_eq. }
  rewrite (get_at src (pre ++ DOT :: b1)
             (b2 ++ n ++ b3 ++ [RPAREN] ++ post) LPAREN)
    by (unfold src, n; first [list_eq | len_eq]).
  cbn [bind]. change (40 =? 40) with true. cbn iota.
  rewrite (skipSpaces_at src (pre ++ DOT :: b1 ++ [LPAREN]) b2
             (n ++ b3 ++ [RPAREN] ++ post))
    by (first [unfold src; list_eq | len_eq | done]).
  cbn [wrap_err bind].
  rewrite (parseBareName_at src (pre ++ DOT :: b1 ++ LPAREN :: b2) n
             (b3 ++ [RPAREN] ++ post)).
  2: unfold src; list_eq. 2: len_eq. 2: done. 2: done.
  2: { apply stops_at_app_blank; [apply blank_not_bare|done|done]. }
  cbn [wrap_err bind fst snd].
  rewrite (skipSpaces_at src (pre ++ DOT :: b1 ++ LPAREN :: b2 ++ n) b3
             ([RPAREN] ++ post))
    by (first [unfold src; list_eq | len_eq | done]).
  cbn [wrap_err bind].
  destruct (Nat.eqb_spec
              (length pre + 1 + length b1 + 1 + length b2 + length n
               + length b3) (length src)) as [He|_].
  { exfalso. unfold src in He. revert He. len_eq. }
  rewrite (get_at src (pre ++ DOT :: b1 ++ LPAREN :: b2 ++ n ++ b3)
             post RPAREN)
    by (unfold src; first [list_eq | len_eq]).
  cbn [bind]. change (negb (41 =? 41)) with false. cbn iota.
  do 2 f_equal. len_eq.
Qed.

(** ** The compiler on a whole path *)

Lemma step_of_number (ds : list Z) (a : ast) :
  step_of (SelNumber ds) = Some a ->
  ds <> [] /\ Forall (fun c => is_digit c = true) ds /\
  exists num, strconv.ParseInt (string_of_runes ds) 10 = Ok num /\
              a = ast_NumberIndexer (int_of_int64 num).
Proof.
  simpl. destruct (nonempty ds && forallb is_digit ds) eqn:E; [|done].
  apply andb_true_iff in E as [E1 E2].
  destruct (strconv.ParseInt _ 10) as [num| |]; [|done..].
  intros [= <-]. split; [by destruct ds|]. split; [|eauto].
  apply Forall_forall. intros c Hc%list_elem_of_In.
  by eapply forallb_forall in E2.
Qed.

Lemma step_of_quoted (cc : Z) (text : list Z) (a : ast) :
  step_of (SelQuoted cc text) = Some a ->
  (cc = SQUOTE \/ cc = DQUOTE) /\
  exists name,
    parseQuotedName (text ++ [cc]) cc 0 = Ok (name, (length text + 1)%nat) /\
    a = ast_NameIndexer name.
Proof.
  simpl. destruct ((cc =? SQUOTE) || (cc =? DQUOTE)) eqn:E; [|done].
  destruct (parseQuotedName _ cc 0) as [[name e]| |]; [|done..].
  destruct (Nat.eqb_spec e (length text + 1)) as [->|]; [|done].
  intros [= <-]. split; [lia|eauto].
Qed.

Lemma step_of_bare (n : list Z) (b : bool) :
  nonempty n && forallb bare_char n = true ->
  n <> [] /\ Forall (fun c => bare_char c = true) n.
Proof.
  intros [E1 E2]%andb_true_iff. split; [by destruct n|].
  apply Forall_forall. intros c Hc%list_elem_of_In.
  by eapply forallb_forall in E2.
Qed.

Lemma blanks_ok_Forall (b : blanks) :
  blanks_ok b = true ->
  Forall (fun c => is_blank c = true) (bl1 b) /\
  Forall (fun c => is_blank c = true) (bl2 b) /\
  Forall (fun c => is_blank c = true) (bl3 b) /\
  Forall (fun c => is_blank c = true) (bl4 b).
Proof.
  unfold blanks_ok. rewrite !andb_true_iff. intros [[[H1 H2] H3] H4].
  repeat split; by apply all_blank_Forall.
Qed.

(** The loop of the compiler passes over one selector and the blanks
    after it, and adds its step. *)
Lemma compile_from_selector (pre post : list Z) (s : selector) (b : blanks)
    (a : ast) (acc : list ast) :
  step_of s = Some a -> blanks_ok b = true -> starts_selector post ->
  compile_from (pre ++ render_selector s b ++ post) (length pre) acc
  = compile_from (pre ++ render_selector s b ++ post)
                 (length pre + length (render_selector s b)) (acc ++ [a]).
Proof.
  intros Hs (Hb1 & Hb2 & Hb3 & Hb4)%blanks_ok_Forall Hpost.
  pose proof (starts_selector_stops _ Hpost) as [Hp1 Hp2].
  destruct s as [ds|cc text|n|n]; simpl render_selector.
  - apply step_of_number in Hs as (Hne & Hds & num & Hnum & ->).
    rewrite compile_from_step by len_eq.
    replace (pre ++ (LBRACKET :: bl1 b ++ ds ++ bl2 b ++ RBRACKET :: bl3 b)
                 ++ post)
      with (pre ++ (LBRACKET :: bl1 b ++ ds ++ bl2 b ++ [RBRACKET])
                ++ bl3 b ++ post) by list_eq.
    rewrite (compileCore_body_number _ _ _ _ _ _ num) by done. cbn [bind fst snd].
    replace (pre ++ (LBRACKET :: bl1 b ++ ds ++ bl2 b ++ [RBRACKET])
                 ++ bl3 b ++ post)
      with ((pre ++ LBRACKET :: bl1 b ++ ds ++ bl2 b ++ [RBRACKET])
              ++ bl3 b ++ post) by list_eq.
    replace (length pre + length (LBRACKET :: bl1 b ++ ds ++ bl2 b ++ [RBRACKET]))%nat
      with (length (pre ++ LBRACKET :: bl1 b ++ ds ++ bl2 b ++ [RBRACKET]))
      by len_eq.
    rewrite compile_from_blanks by done. f_equal. len_eq.
  - apply step_of_quoted in Hs as (Hcc & name & Hq & ->).
    rewrite compile_from_step by len_eq.
    replace (pre ++ (LBRACKET :: bl1 b ++ cc :: text ++ cc :: bl2 b
                       ++ RBRACKET :: bl3 b) ++ post)
      with (pre ++ (LBRACKET :: bl1 b ++ cc :: text ++ cc :: bl2 b
                      ++ [RBRACKET]) ++ bl3 b ++ post) by list_eq.
    rewrite (compileCore_body_quoted _ _ _ _ _ _ _ name) by done. cbn [bind fst snd].
    replace (pre ++ (LBRACKET :: bl1 b ++ cc :: text ++ cc :: bl2 b
                       ++ [RBRACKET]) ++ bl3 b ++ post)
      with ((pre ++ LBRACKET :: bl1 b ++ cc :: text ++ cc :: bl2 b
               ++ [RBRACKET]) ++ bl3 b ++ post) by list_eq.
    replace (length pre + length (LBRACKET :: bl1 b ++ cc :: text ++ cc
                                    :: bl2 b ++ [RBRACKET]))%nat
      with (length (pre ++ LBRACKET :: bl1 b ++ cc :: text ++ cc :: bl2 b
                      ++ [RBRACKET])) by len_eq.
    rewrite compile_from_blanks by done. f_equal. len_eq.
  - simpl in Hs.
    destruct (nonempty n && forallb bare_char n) eqn:E; [|done].
    injection Hs as <-. apply (step_of_bare n true) in E as [Hne Hn].
    rewrite compile_from_step by len_eq.
    by rewrite compileCore_body_name.
  - simpl in Hs.
    destruct (nonempty n && forallb bare_char n) eqn:E; [|done].
    injection Hs as <-. apply (step_of_bare n true) in E as [Hne Hn].
    rewrite compile_from_step by len_eq.
    replace (pre ++ (DOT :: bl1 b ++ LPAREN :: bl2 b ++ n ++ bl3 b
                       ++ RPAREN :: bl4 b) ++ post)
      with (pre ++ (DOT :: bl1 b ++ LPAREN :: bl2 b ++ n ++ bl3 b
                      ++ [RPAREN]) ++ bl4 b ++ post) by list_eq.
    rewrite compileCore_body_function by done. cbn [bind fst snd].
    replace (pre ++ (DOT :: bl1 b ++ LPAREN :: bl2 b ++ n ++ bl3 b
                       ++ [RPAREN]) ++ bl4 b ++ post)
      with ((pre ++ DOT :: bl1 b ++ LPAREN :: bl2 b ++ n ++ bl3 b
               ++ [RPAREN]) ++ bl4 b ++ post) by list_eq.
    replace (length pre + length (DOT :: bl1 b ++ LPAREN :: bl2 b ++ n
                                    ++ bl3 b ++ [RPAREN]))%nat
      with (length (pre ++ DOT :: bl1 b ++ LPAREN :: bl2 b ++ n ++ bl3 b
                      ++ [RPAREN])) by len_eq.
    rewrite compile_from_blanks by done. f_equal. len_eq.
Qed.

Lemma render_starts_selector (sels : list selector) (bs : list blanks) :
  starts_selector (render sels bs).
Proof.
  destruct sels as [|[]], bs; simpl; auto.
Qed.

Lemma compile_from_render (sels : list selector) (bs : list blanks)
    (steps : list ast) (pre : list Z) (acc : list ast) :
  steps_of sels = Some steps ->
  length bs = length sels ->
  forallb blanks_ok bs = true ->
  compile_from (pre ++ render sels bs) (length pre) acc
  = Ok {| asts := acc ++ steps |}.
Proof.
  revert bs steps pre acc.
  induction sels as [|s sels IH]; intros bs steps pre acc Hsteps Hlen Hbs.
  - injection Hsteps as <-. destruct bs; [|done]. simpl.
    rewrite compile_from_end by len_eq. by rewrite app_nil_r.
  - destruct bs as [|b bs]; [done|]. simpl in *.
    destruct (step_of s) as [a|] eqn:Ha; [|done].
    destruct (steps_of sels) as [steps'|] eqn:Hs'; [|done].
    injection Hsteps as <-. apply andb_true_iff in Hbs as [Hb Hbs].
    rewrite (compile_from_selector _ _ _ _ a)
      by (done || apply render_starts_selector).
    rewrite app_assoc, <- length_app.
    rewrite (IH bs steps') by (done || lia).
    by rewrite <- app_assoc.
Qed.

(** C9, as the code has it.  A path text is the root marker followed by
    selectors; blanks may stand after the root marker, after a dot, after a
    bare name, inside brackets and parentheses on both sides of the operand,
    and after a closing bracket or parenthesis.  Whatever runs of blanks
    (white space or control characters) are written there, the text compiles
    to the steps of its selectors: the compiled steps do not depend on the
    blanks. *)
Theorem whitespace_insensitive
    (sels : list selector) (steps : list ast)
    (b0 : list Z) (bs : list blanks) :
  steps_of sels = Some steps ->
  all_blank b0 = true ->
  length bs = length sels ->
  forallb blanks_ok bs = true ->
  compileCore (render_path b0 sels bs) DOLLAR = Ok {| asts := steps |}.
Proof.
  intros Hsteps Hb0%all_blank_Forall Hlen Hbs.
  rewrite compileCore_from. unfold render_path.
  change (get (DOLLAR :: b0 ++ render sels bs) 0) with (@Ok Z DOLLAR).
  cbn [bind]. change (negb (36 =? 36)) with false. cbn iota.
  pose proof (starts_selector_stops _ (render_starts_selector sels bs))
    as [Hp _].
  change (DOLLAR :: b0 ++ render sels bs)
    with ([DOLLAR] ++ b0 ++ render sels bs).
  change 1%nat with (length [DOLLAR]).
  rewrite compile_from_blanks by done.
  rewrite app_assoc, <- length_app.
  by rewrite (compile_from_render sels bs steps).
Qed.

Lemma whitespace_insensitive_witness :
  let steps := [ast_NameIndexer "test"; ast_NumberIndexer 1;
                ast_NameIndexer "abc"] in
  Compile "$.test[1].abc" = Ok {| asts := steps |} /\
  Compile "$ . test [ 1 ] . abc " = Ok {| asts := steps |}.
Proof.
  set (sels := [SelName (runes "test"); SelNumber (runes "1");
                SelName (runes "abc")]).
  split.
  - apply (whitespace_insensitive sels _ [] [no_blanks; no_blanks; no_blanks]);
      vm_compute; reflexivity.
  - apply (whitespace_insensitive sels _ [SPACE]
             [mk_blanks [SPACE] [SPACE] [] [];
              mk_blanks [SPACE] [SPACE] [SPACE] [];
              mk_blanks [SPACE] [SPACE] [] []]);
      vm_compute; reflexivity.
Defined.

(** C9 as stated fails before the root marker: the first character of the
    text must be the root marker itself. *)
Lemma blank_before_root_is_rejected :
  Compile "$.a" = Ok {| asts := [ast_NameIndexer "a"] |} /\
  Compile " $.a" = Err (E compile_path_should_start_with_root 0).
Proof. split; vm_compute; reflexivity. Qed.

(** ** Bytes of runes and hex digits *)

Lemma of_byte_byte_of (z : Z) : utf8.of_byte (utf8.byte_of z) = z mod 256.
Proof.
  unfold utf8.of_byte, utf8.byte_of.
  assert (0 <= z mod 256 < 256) by (apply Z.mod_pos_bound; lia).
  rewrite N_ascii_embedding.
  - rewrite Z2N.id; lia.
  - apply N2Z.inj_lt. rewrite Z2N.id by lia. change (Z.of_N 256) with 256. lia.
Qed.

Lemma of_byte_range (b : ascii) : 0 <= utf8.of_byte b < 256.
Proof.
  unfold utf8.of_byte. pose proof (N_ascii_bounded b).
  split; [lia|]. change 256 with (Z.of_N 256). lia.
Qed.

Lemma byte_of_of_byte (b : ascii) : utf8.byte_of (utf8.of_byte b) = b.
Proof.
  unfold utf8.byte_of. pose proof (of_byte_range b).
  rewrite Z.mod_small by done. unfold utf8.of_byte.
  by rewrite N2Z.id, ascii_N_embedding.
Qed.

(** A byte that [ParseUint] takes for a digit below 16 is a hex digit,
    and is below 128. *)
Lemma digit_of_byte (b : ascii) (d : Z) :
  strconv.digit_of (utf8.of_byte b) = Some d ->
  utf8.of_byte b < 128 /\ (d < 16 -> is_hex (utf8.of_byte b) = true).
Proof.
  destruct b as [[] [] [] [] [] [] [] []]; vm_compute;
    intros [= <-]; split; try done; intros; try done; lia.
Qed.

Lemma digit_of_hex (c d : Z) :
  0 <= c < 256 -> strconv.digit_of c = Some d ->
  c < 128 /\ (d < 16 -> is_hex c = true).
Proof.
  intros Hc. rewrite <- (of_byte_of c Hc). apply digit_of_byte.
Qed.

Lemma lor_high (a x : Z) :
  0 <= x -> 128 <= a -> a + x < 256 -> Z.testbit a 7 = true ->
  128 <= Z.lor a x < 256.
Proof.
  intros Hx Ha Hs Hb.
  pose proof (Z.add_lor_land a x) as Hadd.
  assert (0 <= Z.land a x) by (apply Z.land_nonneg; lia).
  assert (0 <= Z.lor a x) by (apply Z.lor_nonneg; lia).
  split; [|lia].
  assert (Z.testbit (Z.lor a x) 7 = true) as Ht
    by (by rewrite Z.lor_spec, Hb).
  apply Z.testbit_true in Ht; [|lia]. change (2 ^ 7) with 128 in Ht.
  destruct (Z.lt_ge_cases (Z.lor a x) 128) as [Hlt|]; [|done].
  rewrite Z.div_small in Ht by lia. done.
Qed.

(** The encoding of a rune outside ASCII starts with a byte from 128 on. *)
Lemma EncodeRune_first_high (r : Z) :
  ~ (0 <= r <= 127) ->
  exists b bs, map utf8.of_byte (utf8.EncodeRune r) = b :: bs /\
               128 <= b < 256.
Proof.
  intros Hr. unfold utf8.EncodeRune, utf8.MaxRune.
  destruct ((0 <=? r) && (r <=? 127)) eqn:E1; [lia|].
  destruct ((0 <=? r) && (r <=? 2047)) eqn:E2.
  { eexists _, _. split; [reflexivity|]. rewrite of_byte_byte_of.
    assert (0 <= Z.shiftr r 6 < 32) as Hx.
    { rewrite Z.shiftr_div_pow2 by lia. change (2 ^ 6) with 64.
      split; [apply Z.div_pos; lia|apply Z.div_lt_upper_bound; lia]. }
    assert (128 <= Z.lor 192 (Z.shiftr r 6) < 256) as Hl
      by (apply lor_high; [lia|lia|lia|done]).
    rewrite Z.mod_small; lia. }
  destruct ((r <? 0) || (1114111 <? r) || ((55296 <=? r) && (r <=? 57343)))
    eqn:E3.
  { eexists _, _. split; [reflexivity|]. vm_compute. split; congruence. }
  destruct (r <=? 65535) eqn:E4.
  { eexists _, _. split; [reflexivity|]. rewrite of_byte_byte_of.
    assert (0 <= Z.shiftr r 12 < 16) as Hx.
    { rewrite Z.shiftr_div_pow2 by lia. change (2 ^ 12) with 4096.
      split; [apply Z.div_pos; lia|apply Z.div_lt_upper_bound; lia]. }
    assert (128 <= Z.lor 224 (Z.shiftr r 12) < 256) as Hl
      by (apply lor_high; [lia|lia|lia|done]).
    rewrite Z.mod_small; lia. }
  eexists _, _. split; [reflexivity|]. rewrite of_byte_byte_of.
  assert (0 <= Z.shiftr r 18 < 5) as Hx.
  { rewrite Z.shiftr_div_pow2 by lia. change (2 ^ 18) with 262144.
    split; [apply Z.div_pos; lia|apply Z.div_lt_upper_bound; lia]. }
  assert (128 <= Z.lor 240 (Z.shiftr r 18) < 256) as Hl
    by (apply lor_high; [lia|lia|lia|done]).
  rewrite Z.mod_small; lia.
Qed.

(** [ParseUint] in base 16 accepts hex digits only. *)
Lemma ParseUint_loop_hex (n : Z) (bs : list Z) (m : Z) :
  Forall (fun b => 0 <= b < 256) bs ->
  strconv.ParseUint_loop 16 n bs = Ok m ->
  Forall (fun b => is_hex b = true) bs.
Proof.
  intros Hbs. revert n. induction Hbs as [|b bs Hb Hbs IH]; intros n; simpl.
  - constructor.
  - destruct (strconv.digit_of b) as [d|] eqn:Hd; [|done].
    destruct (Z.leb_spec 16 d); [done|].
    destruct (_ <=? n); [done|]. destruct (_ <? _); [done|].
    intros H'%IH. constructor; [|done].
    by apply (digit_of_hex b d Hb Hd).
Qed.

Lemma bytes_range (s : string) :
  Forall (fun b => 0 <= b < 256) (map utf8.of_byte (list_ascii_of_string s)).
Proof.
  apply Forall_forall. intros b (a & <- & _)%list_elem_of_In%in_map_iff.
  apply of_byte_range.
Qed.

(** What [ParseInt] accepts in base 16: hex digits, after one sign at
    most. *)
Lemma ParseInt_hex (s : string) (v : Z) :
  strconv.ParseInt s 16 = Ok v ->
  exists c bs, map utf8.of_byte (list_ascii_of_string s) = c :: bs /\
    (is_hex c || is_sign c = true) /\ Forall (fun b => is_hex b = true) bs.
Proof.
  unfold strconv.ParseInt. pose proof (bytes_range s) as Hr.
  destruct (map utf8.of_byte (list_ascii_of_string s)) as [|c bs]; [done|].
  inversion Hr as [|? ? Hc Hbs]; subst.
  unfold bind. destruct (strconv.ParseUint _ 16) as [un| |] eqn:Hun; [|done..].
  intros _. exists c, bs. split; [done|].
  unfold strconv.ParseUint in Hun.
  destruct ((c =? 43) || (c =? MINUS)) eqn:Hs.
  - split; [unfold is_sign; lia|].
    destruct bs; [done|]. by apply ParseUint_loop_hex in Hun.
  - apply ParseUint_loop_hex in Hun; [|by constructor].
    inversion Hun; subst. split; [lia|done].
Qed.

Lemma is_hex_ascii (c : Z) : is_hex c = true -> 0 <= c <= 127.
Proof. unfold is_hex. lia. Qed.

(** The two characters after [\x]: [ParseInt] accepts them only if the
    second is a hex digit and the first a hex digit or a sign. *)
Lemma ParseInt_two_runes (c2 c3 v : Z) :
  strconv.ParseInt (string_of_runes [c2; c3]) 16 = Ok v ->
  is_hex c2 || is_sign c2 = true /\ is_hex c3 = true.
Proof.
  intros (c & bs & Hbytes & Hc & Hbs)%ParseInt_hex.
  rewrite bytes_of_string_of_runes in Hbytes. simpl in Hbytes.
  rewrite app_nil_r in Hbytes.
  destruct (decide (0 <= c2 <= 127)) as [H2|H2].
  - rewrite EncodeRune_ascii in Hbytes by done. injection Hbytes as <- <-.
    split; [done|].
    destruct (decide (0 <= c3 <= 127)) as [H3|H3].
    + rewrite EncodeRune_ascii in Hbs by done. by inversion Hbs.
    + destruct (EncodeRune_first_high c3 H3) as (b & bs' & Hb & Hhigh).
      rewrite Hb in Hbs. inversion Hbs as [|? ? Hhex _]; subst.
      apply is_hex_ascii in Hhex. lia.
  - destruct (EncodeRune_first_high c2 H2) as (b & bs' & Hb & Hhigh).
    rewrite Hb in Hbytes. injection Hbytes as <- _.
    unfold is_hex, is_sign in Hc. lia.
Qed.

(** ** No panic after the first character *)

Lemma get_panic (src : list Z) (i : nat) :
  get src i = Panic -> (length src <= i)%nat.
Proof.
  unfold get. destruct (src !! i) eqn:E; [done|].
  intros _. by apply lookup_ge_None.
Qed.

Lemma ParseUint_loop_no_panic (base n : Z) (s : list Z) :
  strconv.ParseUint_loop base n s <> Panic.
Proof.
  revert n. induction s as [|c s IH]; intros n; simpl; [done|].
  repeat case_match; by try apply IH.
Qed.

Lemma ParseInt_no_panic (s : string) (base : Z) :
  strconv.ParseInt s base <> Panic.
Proof.
  unfold strconv.ParseInt, strconv.ParseUint, bind.
  repeat case_match; try done;
    by match goal with
       | H : strconv.ParseUint_loop _ _ _ = Panic |- _ =>
         apply ParseUint_loop_no_panic in H
       end.
Qed.

Lemma parseHex_no_panic (src : list Z) (start : nat) :
  parseHex src start <> Panic.
Proof. unfold parseHex. by case_match. Qed.

Lemma parseNumber_no_panic (src : list Z) (start : nat) :
  parseNumber src start <> Panic.
Proof. unfold parseNumber. by case_match. Qed.

Lemma parseBareName_no_panic (src : list Z) (start : nat) :
  parseBareName src start <> Panic.
Proof. unfold parseBareName. by repeat case_match. Qed.

Ltac no_panic_facts :=
  repeat match goal with
  | H : strconv.ParseInt _ _ = Panic |- _ =>
    by apply ParseInt_no_panic in H
  | H : parseHex _ _ = Panic |- _ => by apply parseHex_no_panic in H
  | H : parseNumber _ _ = Panic |- _ => by apply parseNumber_no_panic in H
  | H : parseBareName _ _ = Panic |- _ => by apply parseBareName_no_panic in H
  | H : get _ _ = Panic |- _ => apply get_panic in H
  | H : get _ _ = Ok _ |- _ => apply get_bound in H
  | H : (_ <=? _)%nat = false |- _ => apply Nat.leb_gt in H
  | H : (_ =? _)%nat = false |- _ => apply Nat.eqb_neq in H
  | H : (_ <? _)%nat = false |- _ => apply Nat.ltb_ge in H
  end.

(** An iteration of [parseQuotedName] inside the text does not panic:
    every index it uses is tested against the length first. *)
Lemma parseQuotedName_body_no_panic (src : list Z) (cc : Z) (i : nat)
    (buf : list Z) :
  (i < length src)%nat -> parseQuotedName_body src cc i buf <> Panic.
Proof.
  intros Hi. unfold parseQuotedName_body, bind, wrap_err.
  repeat case_match; try done; no_panic_facts; lia.
Qed.

Lemma parseQuotedName_loop_no_panic (fuel : nat) (src : list Z) (cc : Z)
    (start i : nat) (buf : list Z) :
  parseQuotedName_loop fuel src cc start i buf <> Panic.
Proof.
  revert i buf. induction fuel as [|fuel IH]; intros i buf; simpl; [done|].
  destruct (Nat.leb_spec (length src) i); [done|].
  destruct (parseQuotedName_body src cc i buf) as [[r|[i' buf']]| |] eqn:Hb;
    simpl; try done.
  by apply parseQuotedName_body_no_panic in Hb.
Qed.

Lemma parseQuotedName_no_panic (src : list Z) (cc : Z) (start : nat) :
  parseQuotedName src cc start <> Panic.
Proof. apply parseQuotedName_loop_no_panic. Qed.

Lemma compileCore_body_no_panic (src : list Z) (i : nat) (acc : list ast) :
  (i < length src)%nat -> compileCore_body src i acc <> Panic.
Proof.
  intros Hi. unfold compileCore_body, bind, wrap_err.
  repeat case_match; try done; simplify_eq; simpl in *.
  all: repeat match goal with p : (_ * _)%type |- _ => destruct p end;
       simpl in *.
  all: repeat match goal with
       | H : parseQuotedName _ _ _ = Panic |- _ =>
         by apply parseQuotedName_no_panic in H
       | H : skipSpaces _ _ = Ok _ |- _ =>
         apply skipSpaces_bounds in H; [|lia]
       | H : parseNumber _ _ = Ok _ |- _ =>
         apply parseNumber_bounds in H; [|lia]
       | H : parseBareName _ _ = Ok _ |- _ =>
         apply parseBareName_bounds in H; [|lia]
       | H : parseQuotedName _ _ _ = Ok _ |- _ =>
         apply parseQuotedName_bounds in H
       end.
  all: no_panic_facts; try lia.
  all: by match goal with
       | H : skipSpaces _ _ = _ |- _ => unfold skipSpaces in H
       end.
Qed.

Lemma compileCore_loop_no_panic (fuel : nat) (src : list Z) (i : nat)
    (acc : list ast) :
  compileCore_loop fuel src i acc <> Panic.
Proof.
  revert i acc. induction fuel as [|fuel IH]; intros i acc; simpl; [done|].
  destruct (Nat.leb_spec (length src) i); [done|].
  destruct (compileCore_body src i acc) as [[i' acc']| |] eqn:Hb;
    simpl; try done.
  by apply compileCore_body_no_panic in Hb.
Qed.

(** ** Escapes in quoted names *)

Lemma char_at_get (src : list Z) (i : nat) (c : Z) :
  get src i = Ok c -> char_at src i = c.
Proof. intros H%get_ok. unfold char_at. by rewrite H. Qed.

Lemma parseHex_loop_hex_run (l : list Z) (i : nat) :
  parseHex_loop l i = (i + hex_run l)%nat.
Proof.
  revert i. induction l as [|c l IH]; intros i; simpl; [lia|].
  destruct (is_hex c); [|lia]. rewrite IH. lia.
Qed.

Lemma parseHex_hex_run (src : list Z) (j e : nat) :
  parseHex src j = Ok e ->
  e = (j + hex_run (drop j src))%nat /\ hex_run (drop j src) <> 0%nat.
Proof.
  unfold parseHex. rewrite parseHex_loop_hex_run.
  destruct (Nat.eqb_spec (j + hex_run (drop j src)) j); [done|].
  intros [= <-]. lia.
Qed.

Lemma slice_two (src : list Z) (j : nat) :
  (j + 1 < length src)%nat ->
  slice src j (j + 2) = [char_at src j; char_at src (j + 1)].
Proof.
  intros Hj. unfold slice, char_at.
  replace (j + 2 - j)%nat with 2%nat by lia.
  destruct (lookup_lt_is_Some_2 src j ltac:(lia)) as [c0 H0].
  destruct (lookup_lt_is_Some_2 src (j + 1) ltac:(lia)) as [c1 H1].
  rewrite H0, H1. rewrite (drop_S _ _ _ H0).
  replace (S j) with (j + 1)%nat by lia.
  by rewrite (drop_S _ _ _ H1).
Qed.

(** An iteration at a backslash that does not fail has read an escape
    that is well formed. *)
Lemma parseQuotedName_body_escape_ok (src : list Z) (cc : Z) (k : nat)
    (buf : list Z) (c : loop_ctl (string * nat) (nat * list Z)) :
  get src k = Ok BACKSLASH -> cc <> BACKSLASH ->
  parseQuotedName_body src cc k buf = Ok c ->
  bad_hex_escape src k = false.
Proof.
  intros Hk Hcc. unfold parseQuotedName_body. rewrite Hk. cbn [bind].
  destruct (Z.eqb_spec BACKSLASH cc) as [|_]; [done|].
  change (92 =? 92) with true. cbn iota.
  destruct (Nat.eqb_spec (k + 1) (length src)); [done|].
  destruct (get src (k + 1)) as [c1| |] eqn:H1; [|done..]. cbn [bind].
  unfold bad_hex_escape. rewrite (char_at_get _ _ _ H1).
  unfold wrap_err, bind. intros H.
  repeat case_match; simplify_eq.
  all: repeat match goal with
       | H : parseHex _ _ = Ok _ |- _ =>
         apply parseHex_hex_run in H as [-> ?]
       | H : strconv.ParseInt
               (string_of_runes (slice _ (?j + 2) (?j + 4))) _ = Ok _ |- _ =>
         replace (j + 4)%nat with (j + 2 + 2)%nat in H by lia;
         rewrite slice_two in H by (no_panic_facts; lia);
         apply ParseInt_two_runes in H as [? ?]
       end.
  all: repeat match goal with
       | H : get _ _ = Ok _ |- _ =>
         pose proof (get_bound _ _ _ H); apply char_at_get in H
       end; subst.
  all: replace (k + 2 + 1)%nat with (k + 3)%nat in * by lia.
  all: no_panic_facts; lia.
Qed.

Lemma parse_from_step (src : list Z) (cc : Z) (start i : nat) (buf : list Z) :
  (i < length src)%nat ->
  parse_from src cc start i buf =
  bind (parseQuotedName_body src cc i buf) (fun c =>
    match c with
    | Return r => Ok r
    | Continue (i', buf') => parse_from src cc start i' buf'
    end).
Proof. intros Hi. by apply parseQuotedName_loop_unfold. Qed.

Lemma parseQuotedName_parse_from (src : list Z) (cc : Z) (start : nat) :
  parseQuotedName src cc start = parse_from src cc start start [].
Proof. apply parseQuotedName_loop_fuel; lia. Qed.

(** From a state the loop goes through, the loop gives the result of
    [parseQuotedName]. *)
Lemma scan_reaches_parse (src : list Z) (cc : Z) (start i : nat)
    (buf : list Z) :
  scan_reaches src cc start i buf ->
  parseQuotedName src cc start = parse_from src cc start i buf.
Proof.
  induction 1 as [|i buf i' buf' _ IH Hi Hb].
  - apply parseQuotedName_parse_from.
  - by rewrite IH, parse_from_step, Hb.
Qed.

Lemma compile_reaches_compile (src : list Z) (i : nat) (acc : list ast) :
  compile_reaches src i acc ->
  compileCore src DOLLAR = compile_from src i acc.
Proof.
  induction 1 as [H0|i acc i' acc' _ IH Hi Hb].
  - by rewrite compileCore_from, H0.
  - by rewrite IH, compile_from_step, Hb.
Qed.

(** C1, as the code has it.  In the quoted name of a bracket selector that
    the compiler reaches, at a backslash that the scan of the name reaches:
    a character that follows the backslash and is not in the table of
    escapes is no failure, the scan goes on after it with the backslash
    dropped and the character kept; and a hex escape that is not well formed
    (see [bad_hex_escape]) makes the compilation fail with bad quoted name
    expression. *)
Theorem unknown_escape_kept_bad_hex_rejected
    (src : list Z) (i : nat) (acc : list ast) (s : nat) (cc : Z)
    (k : nat) (buf : list Z) :
  compile_reaches src i acc ->
  get src i = Ok LBRACKET ->
  skipSpaces src (i + 1) = Ok s ->
  get src s = Ok cc ->
  cc = SQUOTE \/ cc = DQUOTE ->
  scan_reaches src cc (s + 1) k buf ->
  get src k = Ok BACKSLASH ->
  (forall c : Z,
     get src (k + 1) = Ok c -> escape_introducer c = false ->
     scan_reaches src cc (s + 1) (k + 2) (buf ++ [c])) /\
  (bad_hex_escape src k = true ->
   compileCore src DOLLAR = Err (E compile_bad_quoted_name_expression s)).
Proof.
  intros Hreach Hi Hs Hcc Hq Hscan Hk.
  assert (cc <> BACKSLASH) as Hne by (destruct Hq; lia).
  pose proof (get_bound _ _ _ Hk) as Hklt.
  split.
  - intros c Hc Hesc. pose proof (get_bound _ _ _ Hc) as Hclt.
    unfold escape_introducer in Hesc.
    replace (k + 2)%nat with (k + 1 + 1)%nat by lia.
    eapply scan_step; [eapply scan_step; [exact Hscan|done|]|done|].
    + unfold parseQuotedName_body. rewrite Hk. cbn [bind].
      destruct (Z.eqb_spec BACKSLASH cc); [lia|].
      change (92 =? 92) with true. cbn iota.
      destruct (Nat.eqb_spec (k + 1) (length src)); [lia|].
      rewrite Hc. cbn [bind].
      repeat match goal with
             | |- context [if ?b then _ else _] =>
               destruct b eqn:?; [exfalso; lia|]
             end.
      reflexivity.
    + unfold parseQuotedName_body. rewrite Hc. cbn [bind].
      destruct (Z.eqb_spec c cc); [exfalso; destruct Hq; lia|].
      destruct (Z.eqb_spec c BACKSLASH); [exfalso; lia|].
      reflexivity.
  - intros Hbad.
    rewrite (compile_reaches_compile _ _ _ Hreach).
    rewrite compile_from_step by (by eapply get_bound).
    unfold compileCore_body. rewrite Hi. cbn [bind].
    change (unicode.IsSpace 91 || unicode.IsControl 91) with false.
    cbn iota. change (91 =? 91) with true. cbn iota.
    rewrite Hs. cbn [wrap_err bind].
    pose proof (get_bound _ _ _ Hcc).
    destruct (Nat.eqb_spec s (length src)); [lia|].
    rewrite Hcc. cbn [bind].
    assert (is_digit cc || (cc =? MINUS) = false
            /\ (cc =? SQUOTE) || (cc =? DQUOTE) = true) as [-> ->]
      by (by destruct Hq as [-> | ->]).
    rewrite (scan_reaches_parse _ _ _ _ _ Hscan).
    rewrite parse_from_step by done.
    destruct (parseQuotedName_body src cc k buf) as [c|e|] eqn:Hb.
    + by rewrite (parseQuotedName_body_escape_ok _ _ _ _ _ Hk Hne Hb) in Hbad.
    + reflexivity.
    + by apply parseQuotedName_body_no_panic in Hb.
Qed.

Lemma unknown_escape_kept_bad_hex_rejected_witness :
  scan_reaches
    (runes_of_string ("$[" +:+ dq +:+ "a" +:+ bsl +:+ "z" +:+ dq +:+ "]"))
    DQUOTE 3 6 [97; 122] /\
  Compile ("$['" +:+ bsl +:+ "u12']")
    = Err (E compile_bad_quoted_name_expression 2).
Proof.
  split.
  - destruct (unknown_escape_kept_bad_hex_rejected
                (runes_of_string
                   ("$[" +:+ dq +:+ "a" +:+ bsl +:+ "z" +:+ dq +:+ "]"))
                1 [] 2 DQUOTE 4 [97]) as [Ha _].
    + apply compile_start. reflexivity.
    + reflexivity.
    + reflexivity.
    + reflexivity.
    + right. reflexivity.
    + eapply scan_step; [apply scan_start|vm_compute; lia|reflexivity].
    + reflexivity.
    + apply (Ha 122); reflexivity.
  - destruct (unknown_escape_kept_bad_hex_rejected
                (runes_of_string ("$['" +:+ bsl +:+ "u12']"))
                1 [] 2 SQUOTE 3 []) as [_ Hb].
    + apply compile_start. reflexivity.
    + reflexivity.
    + reflexivity.
    + reflexivity.
    + left. reflexivity.
    + apply scan_start.
    + reflexivity.
    + apply Hb. reflexivity.
Defined.

(** C1 as stated fails on a character outside the table: [\z] in a
    quoted name is no failure, the name is [z]. *)
Lemma unknown_escape_compiles :
  escape_introducer 122 = false /\
  Compile ("$[" +:+ dq +:+ bsl +:+ "z" +:+ dq +:+ "]")
    = Ok {| asts := [ast_NameIndexer "z"] |}.
Proof. split; vm_compute; reflexivity. Qed.

(* ================================================================== *)
(** * Further properties *)

(** ** Reading a document *)

(** X1. [ReadString] fails on the empty source, accepts a source that
    starts with [n] only if it is exactly [null], and whenever it succeeds
    the type tag of the document is the tag of its value; in particular it
    is never [Type_Invalid]. *)
Theorem ReadString_tags (lib : json_library) :
  ReadString lib EmptyString = Err (E read_source_is_empty 0) /\
  ReadString lib "null" = Ok {| typ := Type_Null; value := Nil |} /\
  (forall rest : string,
     rest <> "ull"%string ->
     ReadString lib (String "n" rest) = Err (E read_unrecognised_tokens 0)) /\
  (forall (src : string) (p : parsedJSON),
     ReadString lib src = Ok p ->
     typ_matches (typ p) (value p) /\ typ p <> Type_Invalid).
Proof.
  split; [done|]. split; [done|]. split.
  - intros rest Hne. unfold ReadString. cbn [Ascii.eqb].
    change (Ascii.eqb "n" "n") with true. cbn iota.
    destruct (String.eqb_spec (String "n" rest) "null") as [[= ->]|]; done.
  - intros src p. unfold ReadString, bind.
    repeat case_match; intros; simplify_eq; done.
Qed.

Lemma ReadString_tags_witness :
  ReadString no_decoder "nil" = Err (E read_unrecognised_tokens 0) /\
  typ {| typ := Type_Null; value := Nil |} <> Type_Invalid.
Proof.
  split.
  - apply (proj1 (proj2 (proj2 (ReadString_tags no_decoder))) "il").
    discriminate.
  - apply (proj2 (proj2 (proj2 (ReadString_tags no_decoder))) "null"
             {| typ := Type_Null; value := Nil |}).
    reflexivity.
Defined.

(** X2. On a document that [ReadString] returned, the path [$] gives the
    root of the document. *)
Theorem root_of_read_document
    (lib : json_library) (src : string) (pjson : parsedJSON)
    (p : CompiledJSONPath) :
  ReadString lib src = Ok pjson ->
  Compile "$" = Ok p ->
  Query p pjson = Ok (Root pjson).
Proof.
  intros Hr [= <-]. unfold Query.
  assert (typ pjson <> Type_Invalid) as Ht.
  { revert Hr. unfold ReadString, bind.
    repeat case_match; intros; simplify_eq; done. }
  by destruct (typ pjson).
Qed.

Lemma root_of_read_document_witness :
  Query {| asts := [] |} {| typ := Type_Null; value := Nil |} = Ok Nil.
Proof.
  apply (root_of_read_document no_decoder "null"
           {| typ := Type_Null; value := Nil |} {| asts := [] |});
    reflexivity.
Defined.

(** ** More on the query evaluator *)

Lemma Query_loop_shift (steps : list ast) (n i : nat) (v : any) :
  Query_loop (n + i) steps v = shift_level n (Query_loop i steps v).
Proof.
  revert i v. induction steps as [|a steps IH]; intros i v; simpl; [done|].
  assert (Query_step (n + i) a v = shift_level n (Query_step i a v)) as ->.
  { unfold Query_step, index_slice. repeat case_match; done. }
  destruct (Query_step i a v) as [v'| |]; simpl; [|done..].
  by rewrite <- IH, Nat.add_succ_r.
Qed.

(** X3. Queries compose: when a path evaluates to a value, the path
    followed by a second path evaluates as the second path does on that
    value, a failure being reported at its level in the whole path. *)
Theorem Query_concat (p q : CompiledJSONPath) (pjson : parsedJSON) (v : any) :
  Query p pjson = Ok v ->
  Query {| asts := asts p ++ asts q |} pjson
  = shift_level (length (asts p))
      (Query q {| typ := typ pjson; value := v |}).
Proof.
  intros [Ht Hl]%Query_ok_loop. unfold Query. simpl.
  rewrite Query_loop_app, Hl. simpl.
  revert Ht. destruct (typ pjson); intros Ht; [done|..];
    by rewrite <- (Query_loop_shift _ _ 0), Nat.add_0_r.
Qed.

Lemma Query_concat_witness :
  Query {| asts := [ast_NameIndexer "test"] ++ [ast_NameIndexer "abc"] |}
        doc_test
  = Err (E query_array_cannot_be_accessed_by_name 1).
Proof.
  etransitivity.
  - apply (Query_concat {| asts := [ast_NameIndexer "test"] |}
             {| asts := [ast_NameIndexer "abc"] |} doc_test
             (Slice [ Map {[ "abc"%string := Float64 1%float ]};
                      Map {[ "abc"%string := Float64 10%float ]} ])).
    vm_compute. reflexivity.
  - vm_compute. reflexivity.
Defined.

Lemma Query_step_level (i : nat) (a : ast) (v : any) (e : error) :
  Query_step i a v = Err e -> at_pos e = i.
Proof.
  unfold Query_step, index_slice. repeat case_match; try done; by intros [= <-].
Qed.

Lemma Query_loop_failure_level (steps : list ast) (i : nat) (v0 : any)
    (e : error) :
  Query_loop i steps v0 = Err e ->
  exists (a : ast) (v : any),
    (i <= at_pos e)%nat /\
    steps !! (at_pos e - i)%nat = Some a /\
    Query_loop i (take (at_pos e - i) steps) v0 = Ok v /\
    Query_step (at_pos e) a v = Err e.
Proof.
  revert i v0. induction steps as [|a steps IH]; intros i v0; simpl; [done|].
  destruct (Query_step i a v0) as [v'| |] eqn:Hs; simpl; [| |done].
  - intros (a' & v & Hle & Hl & Hq & Hstep)%IH. exists a', v.
    replace (at_pos e - i)%nat with (S (at_pos e - S i)) by lia.
    simpl. rewrite Hs. simpl. repeat split; try done. lia.
  - intros [= <-]. pose proof (Query_step_level _ _ _ _ Hs) as Hpos.
    exists a, v0. rewrite Hpos, Nat.sub_diag. simpl. by repeat split.
Qed.

(** X4. A failure of [Query] on a document that was read names the level
    of the step that failed: the steps before it evaluate to a value, and the
    step at that level fails on this value with the same error. *)
Theorem Query_failure_level
    (p : CompiledJSONPath) (pjson : parsedJSON) (e : error) :
  typ pjson <> Type_Invalid ->
  Query p pjson = Err e ->
  exists (a : ast) (v : any),
    asts p !! at_pos e = Some a /\
    Query {| asts := take (at_pos e) (asts p) |} pjson = Ok v /\
    Query_step (at_pos e) a v = Err e.
Proof.
  intros Ht Hq.
  assert (Query_loop 0 (asts p) (value pjson) = Err e) as Hl.
  { revert Hq. unfold Query. by destruct (typ pjson). }
  apply Query_loop_failure_level in Hl as (a & v & _ & Hl & Hq' & Hs).
  rewrite Nat.sub_0_r in *. exists a, v. repeat split; try done.
  unfold Query. simpl. revert Ht. by destruct (typ pjson).
Qed.

Lemma Query_failure_level_witness :
  exists (a : ast) (v : any),
    [ast_NameIndexer "test"; ast_NumberIndexer 5] !! 1%nat = Some a /\
    Query {| asts := take 1 [ast_NameIndexer "test"; ast_NumberIndexer 5] |}
          doc_test = Ok v /\
    Query_step 1 a v = Err (E query_index_out_of_range 1).
Proof.
  apply (Query_failure_level
           {| asts := [ast_NameIndexer "test"; ast_NumberIndexer 5] |}
           doc_test (E query_index_out_of_range 1)).
  - discriminate.
  - vm_compute. reflexivity.
Defined.

(** X5. A number indexer inside the array gives the element at that
    index; one from the length on fails with index out of range. *)
Theorem index_in_and_out_of_range
    (p : CompiledJSONPath) (pjson : parsedJSON) (z : list any) :
  Query p pjson = Ok (Slice z) ->
  (forall (n : nat) (x : any),
     z !! n = Some x ->
     Query {| asts := asts p ++ [ast_NumberIndexer (Z.of_nat n)] |} pjson
       = Ok x) /\
  (forall i : Z,
     Z.of_nat (length z) <= i ->
     Query {| asts := asts p ++ [ast_NumberIndexer i] |} pjson
       = Err (E query_index_out_of_range (length (asts p)))).
Proof.
  intros Hq. split.
  - intros n x Hx. rewrite (Query_snoc _ _ _ _ Hq).
    unfold Query_step, index_slice. cbn.
    pose proof (lookup_lt_Some _ _ _ Hx).
    destruct (Z.ltb_spec (Z.of_nat n) 0); [lia|].
    destruct (Z.leb_spec (Z.of_nat (length z)) (Z.of_nat n)); [lia|].
    destruct (Z.ltb_spec (Z.of_nat n) 0); [lia|].
    by rewrite Nat2Z.id, Hx.
  - intros i Hi. rewrite (Query_snoc _ _ _ _ Hq).
    unfold Query_step. cbn.
    destruct (Z.ltb_spec i 0); [lia|].
    destruct (Z.leb_spec (Z.of_nat (length z)) i); [done|lia].
Qed.

Lemma index_in_and_out_of_range_witness :
  Query {| asts := [ast_NameIndexer "test"] ++ [ast_NumberIndexer 1] |}
        doc_test
    = Ok (Map {[ "abc"%string := Float64 10%float ]}) /\
  Query {| asts := [ast_NameIndexer "test"] ++ [ast_NumberIndexer 2] |}
        doc_test
    = Err (E query_index_out_of_range 1).
Proof.
  destruct (index_in_and_out_of_range
              {| asts := [ast_NameIndexer "test"] |} doc_test
              [ Map {[ "abc"%string := Float64 1%float ]};
                Map {[ "abc"%string := Float64 10%float ]} ]) as [Hin Hout].
  { vm_compute. reflexivity. }
  split.
  - apply (Hin 1%nat). reflexivity.
  - apply (Hout 2). simpl. lia.
Defined.

(** X6. On an array that is not empty the operands [first] and [last]
    give its first and its last element. *)
Theorem first_and_last
    (p : CompiledJSONPath) (pjson : parsedJSON) (z : list any) (x y : any) :
  Query p pjson = Ok (Slice z) ->
  head z = Some x -> last z = Some y ->
  Query {| asts := asts p ++ [ast_Function "first"] |} pjson = Ok x /\
  Query {| asts := asts p ++ [ast_Function "last"] |} pjson = Ok y.
Proof.
  intros Hq Hx Hy. rewrite !(Query_snoc _ _ _ _ Hq).
  unfold Query_step, index_slice. cbn.
  assert (0 < length z)%nat by (destruct z; simpl in *; [done|lia]).
  destruct (Z.eqb_spec (Z.of_nat (length z)) 0); [lia|].
  destruct (Z.ltb_spec (Z.of_nat (length z) - 1) 0); [lia|].
  rewrite head_lookup in Hx. rewrite last_lookup in Hy.
  change (Z.to_nat 0) with 0%nat. rewrite Hx.
  replace (Z.to_nat (Z.of_nat (length z) - 1)) with (pred (length z)) by lia.
  by rewrite Hy.
Qed.

Lemma first_and_last_witness :
  Query {| asts := [ast_NameIndexer "test"] ++ [ast_Function "first"] |}
        doc_test
    = Ok (Map {[ "abc"%string := Float64 1%float ]}) /\
  Query {| asts := [ast_NameIndexer "test"] ++ [ast_Function "last"] |}
        doc_test
    = Ok (Map {[ "abc"%string := Float64 10%float ]}).
Proof.
  apply (first_and_last {| asts := [ast_NameIndexer "test"] |} doc_test
           [ Map {[ "abc"%string := Float64 1%float ]};
             Map {[ "abc"%string := Float64 10%float ]} ]);
    vm_compute; reflexivity.
Defined.

(** X7. A name indexer on an object gives the value stored under the
    key: the value last inserted under it, and property does not exist for a
    key that was deleted. *)
Theorem property_lookup
    (p : CompiledJSONPath) (pjson : parsedJSON) (m : gmap string any)
    (k : string) (v : any) :
  (Query p pjson = Ok (Map (<[k := v]> m)) ->
   Query {| asts := asts p ++ [ast_NameIndexer k] |} pjson = Ok v) /\
  (Query p pjson = Ok (Map (delete k m)) ->
   Query {| asts := asts p ++ [ast_NameIndexer k] |} pjson
     = Err (E query_property_does_not_exist (length (asts p)))).
Proof.
  split; intros Hq; rewrite (Query_snoc _ _ _ _ Hq); unfold Query_step; cbn.
  - by rewrite lookup_insert_eq.
  - by rewrite lookup_delete_eq.
Qed.

Lemma property_lookup_witness :
  Query {| asts := [] ++ [ast_NameIndexer "a"] |}
        {| typ := Type_Object;
           value := Map (<["a"%string := Str "x"]> ∅) |}
    = Ok (Str "x").
Proof.
  apply (proj1 (property_lookup {| asts := [] |}
                  {| typ := Type_Object;
                     value := Map (<["a"%string := Str "x"]> ∅) |}
                  ∅ "a" (Str "x"))).
  reflexivity.
Defined.

(** X8. The table of mismatches between a step and the value it is
    applied to.  Null takes no step; a scalar takes no step; an object takes
    name indexers only, and a function operand on it is a mismatch whatever
    its name; an array takes no name indexer, and a function operand on it
    other than [length], [first] and [last] is an undefined function. *)
Theorem step_mismatches
    (p : CompiledJSONPath) (pjson : parsedJSON) (v : any) (a : ast) :
  Query p pjson = Ok v ->
  let q := {| asts := asts p ++ [a] |} in
  let lvl := length (asts p) in
  (v = Nil -> Query q pjson = Err (E query_nil_referenced lvl)) /\
  (is_scalar v = true ->
   Query q pjson = Err (E query_unexpected_data_type lvl)) /\
  (forall m, v = Map m -> ast_typ a = astType_NumberIndexer ->
   Query q pjson = Err (E query_object_cannot_be_accessed_by_number lvl)) /\
  (forall m, v = Map m -> ast_typ a = astType_Function ->
   Query q pjson = Err (E query_object_cannot_be_accessed_by_function lvl)) /\
  (forall z, v = Slice z -> ast_typ a = astType_NameIndexer ->
   Query q pjson = Err (E query_array_cannot_be_accessed_by_name lvl)) /\
  (forall z, v = Slice z -> ast_typ a = astType_Function ->
   ast_name a <> "length"%string -> ast_name a <> "first"%string ->
   ast_name a <> "last"%string ->
   Query q pjson = Err (E query_undefined_function_name lvl)).
Proof.
  intros Hq q lvl. unfold q, lvl. rewrite (Query_snoc _ _ _ _ Hq).
  unfold Query_step. repeat split.
  - by intros ->.
  - by destruct v.
  - by intros m -> ->.
  - by intros m -> ->.
  - by intros z -> ->.
  - intros z -> -> H1 H2 H3.
    destruct (String.eqb_spec (ast_name a) "length"); [done|].
    destruct (String.eqb_spec (ast_name a) "first"); [done|].
    by destruct (String.eqb_spec (ast_name a) "last").
Qed.

Lemma step_mismatches_witness :
  Query {| asts := [ast_NameIndexer "a"] ++ [ast_Function "length"] |}
        doc_a_b_1
    = Err (E query_object_cannot_be_accessed_by_function 1).
Proof.
  destruct (step_mismatches {| asts := [ast_NameIndexer "a"] |} doc_a_b_1
              (Map {[ "b"%string := Float64 1%float ]})
              (ast_Function "length")) as (_ & _ & _ & H & _).
  { vm_compute. reflexivity. }
  apply (H {[ "b"%string := Float64 1%float ]}); reflexivity.
Defined.

(** ** More on the compiler *)

(** X9. The first character decides how [compileCore] starts: it panics
    on the empty text and on no other; on a text that starts with another
    character than the root marker it fails at position 0. *)
Theorem compile_first_character (src : list Z) (root : Z) :
  (compileCore src root = Panic <-> src = []) /\
  (forall c rest,
     src = c :: rest -> c <> root ->
     compileCore src root = Err (E compile_path_should_start_with_root 0)).
Proof.
  split; [split|].
  - destruct src as [|c rest]; [done|]. unfold compileCore.
    change (get (c :: rest) 0) with (@Ok Z c). cbn [bind].
    destruct (negb (c =? root)); [done|].
    intros H. by apply compileCore_loop_no_panic in H.
  - by intros ->.
  - intros c rest -> Hc. unfold compileCore.
    change (get (c :: rest) 0) with (@Ok Z c). cbn [bind].
    by destruct (Z.eqb_spec c root).
Qed.

Lemma compile_first_character_witness :
  Compile ".a" = Err (E compile_path_should_start_with_root 0).
Proof.
  apply (proj2 (compile_first_character (runes ".a") DOLLAR) DOT (runes "a")).
  - reflexivity.
  - discriminate.
Defined.

(** X10. The compiler produces no negative index, and the evaluator
    panics on no path the compiler produced, whatever the document. *)
Theorem compiled_path_is_safe
    (path : string) (p : CompiledJSONPath) (pjson : parsedJSON) :
  Compile path = Ok p ->
  Forall (fun a => 0 <= ast_index a) (asts p) /\ Query p pjson <> Panic.
Proof.
  intros Hc. pose proof (compileCore_nonneg _ _ _ Hc) as Hn.
  split; [exact Hn|]. by apply Query_no_panic.
Qed.

Lemma compiled_path_is_safe_witness :
  Query {| asts := [ast_NumberIndexer 7] |}
        {| typ := Type_Array; value := Slice [] |} <> Panic.
Proof.
  apply (compiled_path_is_safe "$[7]" {| asts := [ast_NumberIndexer 7] |}).
  vm_compute. reflexivity.
Defined.

Lemma get_no_err (src : list Z) (i : nat) (e : error) :
  get src i <> Err e.
Proof. unfold get. by destruct (src !! i). Qed.

Lemma compileCore_body_error_pos (src : list Z) (i : nat) (acc : list ast)
    (e : error) :
  (i < length src)%nat ->
  compileCore_body src i acc = Err e ->
  (at_pos e <= length src)%nat.
Proof.
  intros Hi. unfold compileCore_body, bind, wrap_err. intros H.
  repeat case_match; simplify_eq; simpl in *.
  all: repeat match goal with p : (_ * _)%type |- _ => destruct p end;
       simpl in *.
  all: repeat match goal with
       | H : get _ _ = Err _ |- _ => by apply get_no_err in H
       | H : skipSpaces _ _ = Err _ |- _ => by unfold skipSpaces in H
       | H : skipSpaces _ _ = Ok _ |- _ =>
         apply skipSpaces_bounds in H; [|lia]
       | H : parseNumber _ _ = Ok _ |- _ =>
         apply parseNumber_bounds in H; [|lia]
       | H : parseBareName _ _ = Ok _ |- _ =>
         apply parseBareName_bounds in H; [|lia]
       | H : parseQuotedName _ _ _ = Ok _ |- _ =>
         apply parseQuotedName_bounds in H
       end.
  all: no_panic_facts; lia.
Qed.

(** X11. A failure of the compiler names a position of the text (or its
    end). *)
Theorem compile_error_position (src : list Z) (root : Z) (e : error) :
  compileCore src root = Err e -> (at_pos e <= length src)%nat.
Proof.
  unfold compileCore, bind.
  destruct (get src 0) as [c0|e0|] eqn:H0;
    [|by apply get_no_err in H0|done].
  destruct (negb (c0 =? root)).
  { intros [= <-]. simpl. lia. }
  generalize (@nil ast) as acc. generalize 1%nat as i.
  generalize (length src) at 1 as fuel.
  induction fuel as [|fuel IH]; intros i acc; simpl; [done|].
  destruct (Nat.leb_spec (length src) i); [done|].
  destruct (compileCore_body src i acc) as [[i' acc']| |] eqn:Hb;
    simpl; [apply IH| |done].
  intros [= <-]. by eapply compileCore_body_error_pos.
Qed.

Lemma compile_error_position_witness :
  (at_pos (E compile_unexpected_termination_after_dot 1) <= length (runes "$."))%nat.
Proof.
  apply (compile_error_position (runes "$.") DOLLAR). reflexivity.
Defined.

(** X12. A quoted name is read the same way wherever its text stands:
    what [parseQuotedName] returns on a text from a position on, it returns,
    with its end position moved, on every text that holds this one. *)
Theorem quoted_name_position_independent
    (l pre post : list Z) (cc : Z) (start : nat) (name : string) (e : nat) :
  parseQuotedName l cc start = Ok (name, e) ->
  parseQuotedName (pre ++ l ++ post) cc (length pre + start)
    = Ok (name, (length pre + e)%nat).
Proof. apply parseQuotedName_frame. Qed.

Lemma quoted_name_position_independent_witness :
  parseQuotedName (runes "$[" ++ runes "a'" ++ runes "].b") SQUOTE
                  (length (runes "$[") + 0)
    = Ok ("a"%string, (length (runes "$[") + 2)%nat).
Proof.
  apply (quoted_name_position_independent (runes "a'") (runes "$[")
           (runes "].b") SQUOTE 0 "a" 2).
  reflexivity.
Defined.

(** ** Numbers written in digits *)

Lemma digit_of_decimal (c : Z) :
  is_digit c = true ->
  strconv.digit_of c = Some (c - DIGIT0) /\ 0 <= c - DIGIT0 < 10.
Proof.
  unfold is_digit, strconv.digit_of. intros H. rewrite H. split; [done|lia].
Qed.

Lemma is_hex_cases (c : Z) :
  is_hex c = true ->
  In c [48; 49; 50; 51; 52; 53; 54; 55; 56; 57;
        65; 66; 67; 68; 69; 70; 97; 98; 99; 100; 101; 102].
Proof. unfold is_hex. simpl. lia. Qed.

Lemma digit_of_hex_value (c : Z) :
  is_hex c = true ->
  strconv.digit_of c = Some (hex_digit_value c) /\
  0 <= hex_digit_value c < 16.
Proof.
  intros H%is_hex_cases. simpl in H.
  repeat (destruct H as [<-|H]; [by vm_compute|]). done.
Qed.

Lemma fold_digits_ge (base : Z) (val : Z -> Z) (s : list Z) (n : Z) :
  1 < base -> 0 <= n ->
  Forall (fun c => 0 <= val c < base) s ->
  n <= fold_left (fun n c => n * base + val c) s n.
Proof.
  intros Hb Hn Hs. revert n Hn.
  induction Hs as [|c s Hv Hs IH]; intros n Hn; simpl; [lia|].
  etransitivity; [|apply IH]; nia.
Qed.

(** The loop of [ParseUint] on digits of the base: the number they write
    after [n], or a range error when it does not fit 64 bits. *)
Lemma ParseUint_loop_value (base : Z) (val : Z -> Z) (s : list Z) (n : Z) :
  1 < base -> 0 <= n <= strconv.maxUint64 ->
  Forall (fun c => strconv.digit_of c = Some (val c) /\ 0 <= val c < base) s ->
  strconv.ParseUint_loop base n s
  = if fold_left (fun n c => n * base + val c) s n <=? strconv.maxUint64
    then Ok (fold_left (fun n c => n * base + val c) s n)
    else Err (E strconv_range 0).
Proof.
  intros Hb Hn Hs. revert n Hn.
  induction Hs as [|c s [Hd Hv] Hs IH]; intros n Hn; simpl.
  - destruct (Z.leb_spec n strconv.maxUint64); [done|lia].
  - rewrite Hd.
    destruct (Z.leb_spec base (val c)); [lia|].
    assert (Forall (fun c => 0 <= val c < base) s) as Hs'
      by (eapply Forall_impl; [exact Hs|]; by intros ? [_ ?]).
    pose proof (fold_digits_ge base val s (n * base + val c) Hb
                  ltac:(nia) Hs') as Hge.
    destruct (Z.leb_spec (strconv.maxUint64 / base + 1) n) as [Hcut|Hcut].
    { pose proof (Z.mul_succ_div_gt strconv.maxUint64 base ltac:(lia)).
      destruct (Z.leb_spec (fold_left (fun n c => n * base + val c) s
                                      (n * base + val c))
                           strconv.maxUint64); [nia|done]. }
    destruct (Z.ltb_spec strconv.maxUint64 (n * base + val c)) as [Hov|Hov].
    { destruct (Z.leb_spec (fold_left (fun n c => n * base + val c) s
                                      (n * base + val c))
                           strconv.maxUint64); [lia|done]. }
    apply IH. nia.
Qed.

(** [ParseInt] in base 10 on a run of digits: the number they write when
    it is below 2^63, a range error otherwise. *)
Lemma ParseInt_decimal (ds : list Z) :
  ds <> [] -> Forall (fun c => is_digit c = true) ds ->
  strconv.ParseInt (string_of_runes ds) 10
  = if decimal_value ds <? 2 ^ 63 then Ok (decimal_value ds)
    else Err (E strconv_range 0).
Proof.
  intros Hne Hds. unfold strconv.ParseInt.
  rewrite bytes_of_ascii_runes.
  2: { eapply Forall_impl; [exact Hds|]. intros c Hc%is_digit_ascii.
       simpl in *. lia. }
  destruct ds as [|d ds']; [done|]. set (ds := d :: ds') in *.
  assert (is_digit d = true) as Hd by (by inversion Hds).
  apply is_digit_ascii in Hd.
  destruct (Z.eqb_spec d 43); [lia|]. destruct (Z.eqb_spec d MINUS); [lia|].
  cbn [orb negb andb]. unfold strconv.ParseUint. fold ds.
  change (match ds with [] => Err (E strconv_syntax 0)
                      | _ => strconv.ParseUint_loop 10 0 ds end)
    with (strconv.ParseUint_loop 10 0 ds).
  rewrite (ParseUint_loop_value 10 (fun c => c - DIGIT0)); [|lia|done|].
  2: { eapply Forall_impl; [exact Hds|]. intros c Hc. by apply digit_of_decimal. }
  fold (decimal_value ds).
  destruct (Z.leb_spec (decimal_value ds) strconv.maxUint64); cbn [bind].
  - destruct (Z.leb_spec (2 ^ 63) (decimal_value ds)),
             (Z.ltb_spec (decimal_value ds) (2 ^ 63)); try lia; done.
  - destruct (Z.ltb_spec (decimal_value ds) (2 ^ 63)); [|done].
    unfold strconv.maxUint64 in *. lia.
Qed.

(** [ParseInt] in base 16 on a run of at most 15 hex digits: the number
    they write. *)
Lemma ParseInt_hex_value (hs : list Z) :
  hs <> [] -> (length hs <= 15)%nat ->
  Forall (fun c => is_hex c = true) hs ->
  strconv.ParseInt (string_of_runes hs) 16 = Ok (hex_value hs) /\
  0 <= hex_value hs < 16 ^ Z.of_nat (length hs).
Proof.
  intros Hne Hlen Hhs.
  assert (forall s n, Forall (fun c => is_hex c = true) s -> 0 <= n ->
            n * 16 ^ Z.of_nat (length s)
            <= fold_left (fun n c => n * 16 + hex_digit_value c) s n
            < (n + 1) * 16 ^ Z.of_nat (length s)) as Hbound.
  { clear. intros s n Hs. revert n.
    induction Hs as [|c s Hc Hs IH]; intros n Hn; simpl fold_left.
    - simpl. lia.
    - destruct (digit_of_hex_value c Hc) as [_ Hv].
      specialize (IH (n * 16 + hex_digit_value c) ltac:(lia)).
      replace (Z.of_nat (length (c :: s))) with (Z.succ (Z.of_nat (length s)))
        by (simpl; lia).
      rewrite Z.pow_succ_r by lia. nia. }
  pose proof (Hbound hs 0 Hhs ltac:(lia)) as Hv. fold (hex_value hs) in Hv.
  split; [|lia].
  assert (16 ^ Z.of_nat (length hs) <= 16 ^ 15) as Hpow
    by (apply Z.pow_le_mono_r; lia).
  unfold strconv.ParseInt.
  rewrite bytes_of_ascii_runes.
  2: { eapply Forall_impl; [exact Hhs|]. intros c Hc%is_hex_ascii.
       simpl in *. lia. }
  destruct hs as [|h hs']; [done|]. set (hs := h :: hs') in *.
  assert (is_hex h = true) as Hh by (by inversion Hhs).
  unfold is_hex in Hh.
  destruct (Z.eqb_spec h 43); [lia|]. destruct (Z.eqb_spec h MINUS); [lia|].
  cbn [orb negb andb]. unfold strconv.ParseUint. fold hs.
  change (match hs with [] => Err (E strconv_syntax 0)
                      | _ => strconv.ParseUint_loop 16 0 hs end)
    with (strconv.ParseUint_loop 16 0 hs).
  rewrite (ParseUint_loop_value 16 hex_digit_value); [|lia|done|].
  2: { eapply Forall_impl; [exact Hhs|]. intros c Hc.
       by apply digit_of_hex_value. }
  fold (hex_value hs).
  change (16 ^ 15) with 1152921504606846976 in Hpow.
  destruct (Z.leb_spec (hex_value hs) strconv.maxUint64);
    [|unfold strconv.maxUint64 in *; lia].
  cbn [bind].
  destruct (Z.leb_spec (2 ^ 63) (hex_value hs)); [lia|]. done.
Qed.
